(** * The ArcGIS tile source of osgEarth

    A shallow embedding of [src/osgPlugins/arcgis/ReaderWriterArcGIS.cpp]:
    the class [ArcGISSource] (constructor, [initialize], [getPixelsPerTile],
    [createImage], [createHeightField], [getExtension]) and the class
    [ReaderWriterArcGIS] (constructor, [className], [readObject]).

    - C++ [double] is IEEE binary64, modelled by the primitive floats of the
      kernel ([PrimFloat]); [unsigned int] values are [N], [int] values are [Z]
      with the conversion written out; [std::string] is [string].
    - Member functions run in a state monad over the object ([state
      ArcGISSource]), so that what a call writes is visible in its final state.
    - What the plugin only calls (the remote map service, the named-profile
      factory, the registry's global profile, the HTTP client) is a field of
      the record [Host], which every function that calls it takes.

    The definitions come first, the properties after them. *)

From Stdlib Require Import ZArith NArith List Bool String Ascii.
From Stdlib Require Import DecimalString DecimalN DecimalPos.
From Stdlib Require Import QArith Qabs Qpower Lia Lqa Floats.
From ExtLib Require Import Structures.Monad Structures.MonadState.
From ExtLib Require Import Data.Monads.StateMonad.
Import ListNotations.
Import MonadNotation.

#[local] Open Scope monad_scope.
#[local] Open Scope string_scope.

(** * Definitions *)

(** ** Pieces of the C and C++ standard libraries the plugin uses *)

(** [tolower] of <ctype.h> in the "C" locale. *)
Definition tolower (c : ascii) : ascii :=
  let n := N_of_ascii c in
  if ((65 <=? n) && (n <=? 90))%N then ascii_of_N (n + 32) else c.

(** [std::transform( f.begin(), f.end(), f.begin(), op )] on a string. *)
Fixpoint transform (op : ascii -> ascii) (s : string) : string :=
  match s with
  | EmptyString => EmptyString
  | String c s' => String (op c) (transform op s')
  end.

(** [s.empty()]. *)
Definition empty (s : string) : bool :=
  match s with EmptyString => true | String _ _ => false end.

(** [s.substr( pos, len )] for [pos <= s.length()]. *)
Definition substr (s : string) (pos len : nat) : string := substring pos len s.

(** [int i = u] for an [unsigned int u]: the value modulo 2^32, read as a
    two's complement 32-bit integer. *)
Definition int_of_unsigned (u : N) : Z :=
  let z := (Z.of_N u mod 2 ^ 32)%Z in
  if (z <? 2 ^ 31)%Z then z else (z - 2 ^ 32)%Z.

(** [os << i] for an [int]. *)
Definition show_int (i : Z) : string := NilZero.string_of_int (Z.to_int i).

(** [os << u] for an [unsigned int]. *)
Definition show_unsigned (u : N) : string :=
  NilZero.string_of_uint (N.to_uint u).

(** ** Output of a [double] on a stream

    [os << std::setprecision(P) << x] with the default float field is
    [printf("%.Pg", x)] (ISO C 7.21.6.1, conversion [g]): the value is rounded
    to [P] significant decimal digits; with [X] the decimal exponent of the
    rounded value, the fixed notation is used when [-4 <= X < P] and the
    scientific one otherwise; trailing zeros of the fraction are dropped, and
    the point with them when no fraction is left.  A finite binary64 value is
    the dyadic rational [m * 2^e], so its decimal expansion is finite and the
    rounding below is done on the exact value (ties to even, as the default
    rounding mode gives).  NaN is written without a sign. *)

(** Number of decimal digits of [n > 0]; each step divides by ten, so the
    binary length of [n] is enough fuel. *)
Fixpoint ndigits_fuel (fuel : nat) (n : Z) : nat :=
  match fuel with
  | O => O
  | S fuel' => if (n <? 10)%Z then 1%nat else S (ndigits_fuel fuel' (n / 10))
  end.

Definition ndigits (n : Z) : Z :=
  Z.of_nat (ndigits_fuel (S (Z.to_nat (Z.log2 n))) n).

(** The value [m * 2^e] as [n / 10^k], [n] and [k] integers, [k >= 0]. *)
Definition decimal_of (m : positive) (e : Z) : Z * Z :=
  if (0 <=? e)%Z then (Z.pos m * 2 ^ e, 0)%Z
  else (Z.pos m * 5 ^ (- e), - e)%Z.

(** [n / 10^k] rounded to [P] significant digits: the result [(D, X)] stands
    for [D * 10^(X - P + 1)] with [10^(P-1) <= D < 10^P], so [X] is the
    exponent of the scientific notation. *)
Definition round_sig (P n k : Z) : Z * Z :=
  let L := ndigits n in
  let X := (L - k - 1)%Z in
  if (L <=? P)%Z then (n * 10 ^ (P - L), X)%Z
  else
    let S := (10 ^ (L - P))%Z in
    let q := (n / S)%Z in
    let r := (n mod S)%Z in
    let up := ((S <? 2 * r) || ((2 * r =? S) && Z.odd q))%Z in
    let q' := if up then (q + 1)%Z else q in
    if (q' =? 10 ^ P)%Z then (10 ^ (P - 1), X + 1)%Z else (q', X).

(** Removal of the trailing zeros of a fraction. *)
Fixpoint strip_trailing_zeros (s : string) : string :=
  match s with
  | EmptyString => EmptyString
  | String c s' =>
      let t := strip_trailing_zeros s' in
      if Ascii.eqb c "0" && empty t then EmptyString else String c t
  end.

Fixpoint zeros (n : nat) : string :=
  match n with
  | O => EmptyString
  | S n' => String "0" (zeros n')
  end.

(** An integer part and a fraction, the point written only before a fraction
    that is not empty. *)
Definition with_fraction (int_part frac : string) : string :=
  let frac' := strip_trailing_zeros frac in
  if empty frac' then int_part else int_part ++ "." ++ frac'.

(** The character of the decimal digit [d]. *)
Definition digit_char (d : Z) : ascii := ascii_of_N (48 + Z.to_N d).

(** The [n] low decimal digits of [D], the most significant first. *)
Fixpoint digits (n : nat) (D : Z) : string :=
  match n with
  | O => EmptyString
  | S n' => digits n' (D / 10) ++ String (digit_char (D mod 10)) EmptyString
  end.

(** The exponent of the scientific notation: a sign and at least two digits. *)
Definition show_exponent (X : Z) : string :=
  let a := Z.abs X in
  "e" ++ (if (X <? 0)%Z then "-" else "+")
      ++ digits (Z.to_nat (Z.max 2 (ndigits a))) a.

(** The [P] digits of [D] and the exponent [X] written as [%g] writes them:
    in the fixed notation the point comes after [X + 1] digits, or after a
    zero and [- X - 1] more zeros; in the scientific one after one digit. *)
Definition render_g (P D X : Z) : string :=
  let p := Z.to_nat P in
  let ds := digits p D in
  if ((-4 <=? X) && (X <? P))%Z then
    if (0 <=? X)%Z then
      let i := S (Z.to_nat X) in
      with_fraction (substr ds 0 i) (substr ds i (p - i))
    else
      with_fraction "0" (zeros (Z.to_nat (- X - 1)) ++ ds)
  else
    with_fraction (substr ds 0 1) (substr ds 1 (p - 1)) ++ show_exponent X.

Definition show_sign (s : bool) : string := if s then "-" else "".

(** [os << std::setprecision(P) << x], [P >= 1]. *)
Definition show_double (P : Z) (x : float) : string :=
  match Prim2SF x with
  | S754_nan => "nan"
  | S754_infinity s => show_sign s ++ "inf"
  | S754_zero s => show_sign s ++ "0"
  | S754_finite s m e =>
      let '(n, k) := decimal_of m e in
      let '(D, X) := round_sig P n k in
      show_sign s ++ render_g P D X
  end.

(** C++ comparisons of two [double]s; each is false when an operand is NaN. *)
Definition gt (a b : float) : bool := (b <? a)%float.
Definition lt (a b : float) : bool := (a <? b)%float.

(** ** The exact value of a [double]

    What a finite binary64 value stands for, as a rational; infinities and
    NaN have no value.  It is used to say what the printed digits are worth
    and when an operation is exact, that is, returns the real result without
    rounding. *)

Definition F2Q (x : float) : option Q :=
  match Prim2SF x with
  | S754_zero _ => Some 0%Q
  | S754_finite s m e =>
      Some ((if s then - inject_Z (Z.pos m) else inject_Z (Z.pos m)) * 2 ^ e)%Q
  | S754_infinity _ | S754_nan => None
  end.

(** The digits that [show_double P] writes for a finite [x] that is not zero:
    the sign, the [P] significant digits read as an integer, and the decimal
    exponent. *)
Definition significant_digits (P : Z) (x : float) : option (bool * Z * Z) :=
  match Prim2SF x with
  | S754_finite s m e =>
      let '(n, k) := decimal_of m e in
      let '(D, X) := round_sig P n k in
      Some (s, D, X)
  | S754_zero _ | S754_infinity _ | S754_nan => None
  end.

(** The number that [P] digits [D] with the exponent [X] stand for:
    [d.ddd... * 10^X], the significand being [D / 10^(P-1)]. *)
Definition digits_value (P : Z) (s : bool) (D X : Z) : Q :=
  ((if s then - inject_Z D else inject_Z D) * 10 ^ (X - P + 1))%Q.

(** [exact_op op qop a b]: the operands are finite, [op a b] is finite, and
    its value is the real result [qop] of the values. *)
Definition exact_op (op : float -> float -> float) (qop : Q -> Q -> Q)
    (a b : float) : bool :=
  match F2Q a, F2Q b, F2Q (op a b) with
  | Some x, Some y, Some z => Qeq_bool z (qop x y)
  | _, _, _ => false
  end.

(** Equality of two values that both exist. *)
Definition Qeq_some (a b : option Q) : Prop :=
  match a, b with
  | Some x, Some y => (x == y)%Q
  | _, _ => False
  end.

(** Order of two values that both exist. *)
Definition Qle_some (a b : option Q) : Prop :=
  match a, b with
  | Some x, Some y => (x <= y)%Q
  | _, _ => False
  end.

(** [rounds_to P v q], for [v > 0]: with [e] the decimal exponent of [v], [q]
    is a multiple of the unit [10^(e-P+1)] of the [P]th significant digit of
    [v], of [P] digits or the next power of ten, at most half a unit away
    from [v]. *)
Definition rounds_to (P : Z) (v q : Q) : Prop :=
  exists e Qi : Z,
    (10 ^ (P - 1) <= Qi <= 10 ^ P)%Z /\
    (q == inject_Z Qi * 10 ^ (e - P + 1))%Q /\
    (Qabs (v - q) <= (1 # 2) * 10 ^ (e - P + 1))%Q /\
    (10 ^ e <= v)%Q /\ (v < 10 ^ (e + 1))%Q.

(** ** Reading a decimal numeral

    The rational that a numeral [[-]ddd[.ddd][e(+|-)dd]] denotes, to say what
    the characters written for a [double] are worth. *)

Definition digit_of (c : ascii) : option Z :=
  let n := N_of_ascii c in
  if ((48 <=? n) && (n <=? 57))%N then Some (Z.of_N n - 48)%Z else None.

(** The longest run of digits at the head of [s]: its value on top of [acc],
    its length, and what follows it. *)
Fixpoint read_digits (s : string) (acc : Z) : Z * nat * string :=
  match s with
  | EmptyString => (acc, O, EmptyString)
  | String c s' =>
      match digit_of c with
      | Some d => let '(v, n, r) := read_digits s' (10 * acc + d) in (v, S n, r)
      | None => (acc, O, s)
      end
  end.

Definition read_sign (s : string) : bool * string :=
  match s with
  | String c s' => if Ascii.eqb c "-" then (true, s') else (false, s)
  | EmptyString => (false, s)
  end.

(** Digits, then maybe a point and more digits: all the digits read as one
    integer, the number of those after the point, and what follows. *)
Definition read_mantissa (s : string) : option (Z * nat * string) :=
  let '(i, ni, s1) := read_digits s 0 in
  if Nat.eqb ni 0 then None
  else
    match s1 with
    | String c s2 =>
        if Ascii.eqb c "." then Some (read_digits s2 i) else Some (i, O, s1)
    | EmptyString => Some (i, O, s1)
    end.

(** Nothing, or [e], a sign and digits up to the end. *)
Definition read_exponent (s : string) : option Z :=
  match s with
  | EmptyString => Some 0%Z
  | String c (String sg s') =>
      let '(v, n, r) := read_digits s' 0 in
      if Ascii.eqb c "e" && negb (Nat.eqb n 0) && empty r then
        if Ascii.eqb sg "+" then Some v
        else if Ascii.eqb sg "-" then Some (- v)%Z
        else None
      else None
  | String _ EmptyString => None
  end.

(** The rational that a decimal numeral [[-]ddd[.ddd][e(+|-)dd]] denotes. *)
Definition read_decimal (s : string) : option Q :=
  let '(neg, s1) := read_sign s in
  match read_mantissa s1 with
  | Some (m, nf, s2) =>
      match read_exponent s2 with
      | Some e =>
          Some ((if neg then - inject_Z m else inject_Z m)
                * 10 ^ (e - Z.of_nat nf))%Q
      | None => None
      end
  | None => None
  end.

(** The value of a string of digits on top of [acc]. *)
Fixpoint number (s : string) (acc : Z) : Z :=
  match s with
  | EmptyString => acc
  | String c s' =>
      match digit_of c with
      | Some d => number s' (10 * acc + d)
      | None => acc
      end
  end.

Fixpoint all_digits (s : string) : Prop :=
  match s with
  | EmptyString => True
  | String c s' => digit_of c <> None /\ all_digits s'
  end.

(** [s] is empty or begins with a character that is not a digit. *)
Definition no_digit_ahead (s : string) : Prop :=
  match s with
  | EmptyString => True
  | String c _ => digit_of c = None
  end.

(** [s] is empty or begins with a character that is neither a digit nor the
    point. *)
Definition mantissa_ends (s : string) : Prop :=
  match s with
  | EmptyString => True
  | String c _ => digit_of c = None /\ Ascii.eqb c "." = false
  end.

(** ** Characters and fields of a string

    What the characters of a numeral are, and how a string splits at a
    separator, to say how a URL is read back. *)

(** Whether every character of [s] satisfies [f]. *)
Fixpoint every (f : ascii -> bool) (s : string) : bool :=
  match s with
  | EmptyString => true
  | String c s' => f c && every f s'
  end.

(** The upper-case letters, which [tolower] changes. *)
Definition is_upper (c : ascii) : bool :=
  let n := N_of_ascii c in ((65 <=? n) && (n <=? 90))%N.

(** The characters of a number written on a stream: the digits, the signs,
    the point, the [e] of the exponent, and the letters of [inf] and [nan]. *)
Definition numeral_char (c : ascii) : bool :=
  match digit_of c with
  | Some _ => true
  | None =>
      existsb (Ascii.eqb c) ["-"; "+"; "."; "e"; "i"; "n"; "f"; "a"]%char
  end.

Definition other_than (sep c : ascii) : bool := negb (Ascii.eqb c sep).

(** The fields of [s] that the occurrences of [sep] separate. *)
Fixpoint split_at (sep : ascii) (s : string) : list string :=
  match s with
  | EmptyString => [EmptyString]
  | String c s' =>
      if Ascii.eqb c sep then EmptyString :: split_at sep s'
      else
        match split_at sep s' with
        | field :: fields => String c field :: fields
        | [] => [String c EmptyString]
        end
  end.

(** ** The host toolkit, as the plugin sees it *)

Definition PROPERTY_URL : string := "url".
Definition PROPERTY_PROFILE : string := "profile".

(** [osgDB::ReaderWriter::Options]: [getPluginData( name )] is a pointer,
    null when nothing was stored under that name, read here as a C string. *)
Record Options := { getPluginData : string -> option string }.

(** Modelled from the spec: [GeoExtent] (osgEarth/Profile is not in src/), the
    "geographic extent: (xmin, ymin, xmax, ymax)" of the spec, with the width
    and height of that box. *)
Record GeoExtent := mkGeoExtent {
  xMin : float;
  yMin : float;
  xMax : float;
  yMax : float
}.

Definition width (ex : GeoExtent) : float := (xMax ex - xMin ex)%float.
Definition height (ex : GeoExtent) : float := (yMax ex - yMin ex)%float.

(** The centre of an extent, on the exact values of its bounds. *)
Definition center_x (ex : GeoExtent) : option Q :=
  match F2Q (xMin ex), F2Q (xMax ex) with
  | Some a, Some b => Some ((a + b) / 2)%Q
  | _, _ => None
  end.

Definition center_y (ex : GeoExtent) : option Q :=
  match F2Q (yMin ex), F2Q (yMax ex) with
  | Some a, Some b => Some ((a + b) / 2)%Q
  | _, _ => None
  end.

(** [d / 2] is finite and worth half the value of [d]. *)
Definition exact_half (d : float) : bool :=
  match F2Q d, F2Q (d / 2)%float with
  | Some x, Some z => Qeq_bool z (x / 2)
  | _, _ => false
  end.

(** [expanded_exact lo hi d]: moving the bounds [lo] and [hi] outwards by
    [d / 2] and taking the length of the result rounds nowhere. *)
Definition expanded_exact (lo hi d : float) : bool :=
  exact_half d
  && exact_op PrimFloat.sub Qminus lo (d / 2)%float
  && exact_op PrimFloat.add Qplus hi (d / 2)%float
  && exact_op PrimFloat.sub Qminus (hi + d / 2)%float (lo - d / 2)%float.

(** No operation of lines 93 to 107 on the extent [ex], and neither the width
    nor the height of the extent they build, is rounded. *)
Definition expansion_exact (ex : GeoExtent) : bool :=
  let w := width ex in
  let h := height ex in
  exact_op PrimFloat.sub Qminus (xMax ex) (xMin ex)
  && exact_op PrimFloat.sub Qminus (yMax ex) (yMin ex)
  && (if gt w h then
        exact_op PrimFloat.sub Qminus w h
        && expanded_exact (yMin ex) (yMax ex) (w - h)%float
      else if lt w h then
        exact_op PrimFloat.sub Qminus h w
        && expanded_exact (xMin ex) (xMax ex) (h - w)%float
      else true).

(** Modelled from the spec: [TileKey] (osgEarth/TileKey is not in src/), what
    its getters return for one key: the level, the column and the row, and
    the extent. *)
Record TileKey := mkTileKey {
  getLevelOfDetail : N;
  getTileXY : N * N;
  getGeoExtent : GeoExtent
}.

(** Modelled from the spec: [TileInfo] of MapService.h (not in src/), the
    tile size and the image format the service reported. *)
Record TileInfo := mkTileInfo {
  getTileSize : Z;
  getFormat : string
}.

Section Host.

(** Types of the toolkit that the plugin passes around and never looks into. *)
Variable SpatialReference : Type.
Variable Image : Type.
Variable HeightField : Type.
Variable ProgressCallback : Type.

(** Modelled from the spec: [Profile] (osgEarth/Profile is not in src/), "a
    spatial reference system plus tiling grid definition": the reference
    system, the full extent and the numbers of tiles at level 0, which is what
    [Profile::create( srs, xmin, ymin, xmax, ymax, tilesX, tilesY )] takes. *)
Record Profile := Profile_create {
  getSRS : SpatialReference;
  p_xmin : float;
  p_ymin : float;
  p_xmax : float;
  p_ymax : float;
  numTilesWideAtLod0 : N;
  numTilesHighAtLod0 : N
}.

Definition getExtent (p : Profile) : GeoExtent :=
  mkGeoExtent (p_xmin p) (p_ymin p) (p_xmax p) (p_ymax p).

(** Modelled from the spec: [Profile::getNumTiles( lod, x, y )], the tile grid
    of the pyramid, which doubles in both directions at each level; an
    [unsigned int] wraps at 2^32. *)
Definition getNumTiles (p : Profile) (lod : N) : N * N :=
  ((numTilesWideAtLod0 p * 2 ^ lod) mod 2 ^ 32,
   (numTilesHighAtLod0 p * 2 ^ lod) mod 2 ^ 32)%N.

(** Modelled from the spec: [MapService] of MapService.h (not in src/), the
    descriptor that [init( url )] fills from the metadata of the remote
    service. *)
Record MapService := mkMapService {
  getProfile : option Profile;
  isTiled : bool;
  getTileInfo : TileInfo;
  getError : string
}.

(** What the plugin calls and does not define:
    - [Profile::create( name )], the profile of that name, null when unknown;
    - [osgEarth::Registry::instance()->getGlobalGeodeticProfile()];
    - [MapService::init( url )] on the freshly built member: whether it
      succeeded, and the descriptor it leaves;
    - [HTTPClient::readImageFile( url, options, progress )], the decoded
      image, null when the fetch or the decoding failed. *)
Record Host := mkHost {
  Profile_create_named : string -> option Profile;
  getGlobalGeodeticProfile : option Profile;
  MapService_init : string -> bool * MapService;
  HTTPClient_readImageFile :
    string -> option Options -> ProgressCallback -> option Image
}.

Variable host : Host.

(** ** class ArcGISSource : public TileSource *)

(** The object: the state of the base class [TileSource] that the plugin
    touches (the options it was built from, the profile [setProfile] stores)
    and the private members. *)
Record ArcGISSource := mkArcGISSource {
  getOptions : option Options;
  TileSource_profile : option Profile;
  _url : string;
  _profile_str : string;
  _map : string;
  _layer : string;
  _format : string;
  _map_service : MapService
}.

(** [TileSource::setProfile]. *)
Definition setProfile (profile : option Profile) : state ArcGISSource unit :=
  modify (fun this =>
    mkArcGISSource (getOptions this) profile (_url this) (_profile_str this)
      (_map this) (_layer this) (_format this) (_map_service this)) ;;
  ret tt.

(** The string a plugin datum holds, the member keeping its default (empty)
    value when there are no options or no such datum. *)
Definition plugin_string (options : option Options) (name : string) : string :=
  match options with
  | Some o =>
      match getPluginData o name with
      | Some s => s
      | None => ""
      end
  | None => ""
  end.

(** The constructor: the object, and the lines it writes on
    [osg::notify(osg::WARN)]. *)
Definition ArcGISSource_new (options : option Options)
  : ArcGISSource * list string :=
  let url := plugin_string options PROPERTY_URL in
  let profile_str := plugin_string options PROPERTY_PROFILE in
  let map := "" in
  let layer := "" in
  let layer := if empty layer then "_alllayers" else layer in
  let format := "" in
  let format := if empty format then "png" else format in
  let '(ok, map_service) := MapService_init host url in
  let log :=
    if negb ok then
      ["[osgearth] [ArcGIS] map service initialization failed: "
         ++ getError map_service]
    else [] in
  (mkArcGISSource options None url profile_str map layer format map_service,
   log).

(** Lines 93 to 107: the profile with its extent expanded to a square. *)
Definition expand_to_square (profile : Profile) : Profile :=
  let oldEx := getExtent profile in
  if gt (width oldEx) (height oldEx) then
    let d := (width oldEx - height oldEx)%float in
    let '(tilesX, tilesY) := getNumTiles profile 0 in
    Profile_create (getSRS profile)
      (xMin oldEx) (yMin oldEx - d / 2)%float
      (xMax oldEx) (yMax oldEx + d / 2)%float tilesX tilesY
  else if lt (width oldEx) (height oldEx) then
    let d := (height oldEx - width oldEx)%float in
    let '(tilesX, tilesY) := getNumTiles profile 0 in
    Profile_create (getSRS profile)
      (xMin oldEx - d / 2)%float (yMin oldEx)
      (xMax oldEx + d / 2)%float (yMax oldEx) tilesX tilesY
  else profile.

(** [void initialize( referenceURI, overrideProfile )]. *)
Definition initialize (referenceURI : string) (overrideProfile : option Profile)
  : state ArcGISSource unit :=
  this <- get ;;
  let profile :=
    if negb (empty (_profile_str this)) then
      Profile_create_named host (_profile_str this)
    else
      match getProfile (_map_service this) with
      | Some p =>
          if negb (isTiled (_map_service this)) then Some (expand_to_square p)
          else Some p
      | None => getGlobalGeodeticProfile host
      end in
  setProfile profile.

(** [int getPixelsPerTile() const]. *)
Definition getPixelsPerTile : state ArcGISSource Z :=
  this <- get ;;
  ret (getTileSize (getTileInfo (_map_service this))).

(** Lines 136 to 139 of [createImage]: the format of the URL. *)
Definition url_format (this : ArcGISSource) : string :=
  let f := getFormat (getTileInfo (_map_service this)) in
  let f := transform tolower f in
  if (3 <? String.length f)%nat && (substr f 0 3 =? "png") then "png" else f.

(** Lines 129 to 160 of [createImage]: [buf.str()], the URL to fetch. *)
Definition createImage_url (this : ArcGISSource) (key : TileKey) : string :=
  let level := int_of_unsigned (getLevelOfDetail key) in
  let '(tile_x, tile_y) := getTileXY key in
  let f := url_format this in
  if isTiled (_map_service this) then
    _url this ++ "/tile"
      ++ "/" ++ show_int level
      ++ "/" ++ show_unsigned tile_y
      ++ "/" ++ show_unsigned tile_x ++ "." ++ f
  else
    let ex := getGeoExtent key in
    _url this ++ "/export"
      ++ "?bbox=" ++ show_double 16 (xMin ex) ++ "," ++ show_double 16 (yMin ex)
      ++ "," ++ show_double 16 (xMax ex) ++ "," ++ show_double 16 (yMax ex)
      ++ "&format=" ++ f
      ++ "&size=256,256"
      ++ "&transparent=true"
      ++ "&f=image"
      ++ "&" ++ "." ++ f.

(** [osg::Image* createImage( key, progress )]. *)
Definition createImage (key : TileKey) (progress : ProgressCallback)
  : state ArcGISSource (option Image) :=
  this <- get ;;
  ret (HTTPClient_readImageFile host (createImage_url this key)
         (getOptions this) progress).

(** [osg::HeightField* createHeightField( key, progress )]. *)
Definition createHeightField (key : TileKey) (progress : ProgressCallback)
  : state ArcGISSource (option HeightField) :=
  ret None.

(** [std::string getExtension() const]. *)
Definition getExtension : state ArcGISSource string :=
  this <- get ;;
  ret (_format this).

(** ** Requests

    A call of one of the member functions the host uses per request, what it
    returns, and a sequence of such calls on one object. *)
Inductive Request : Type :=
| CreateImage (key : TileKey) (progress : ProgressCallback)
| CreateHeightField (key : TileKey) (progress : ProgressCallback)
| GetPixelsPerTile
| GetExtension.

Inductive Response : Type :=
| ImageResult (image : option Image)
| HeightFieldResult (hf : option HeightField)
| PixelsResult (n : Z)
| ExtensionResult (ext : string).

Definition serve (r : Request) : state ArcGISSource Response :=
  match r with
  | CreateImage key progress =>
      image <- createImage key progress ;; ret (ImageResult image)
  | CreateHeightField key progress =>
      hf <- createHeightField key progress ;; ret (HeightFieldResult hf)
  | GetPixelsPerTile => n <- getPixelsPerTile ;; ret (PixelsResult n)
  | GetExtension => ext <- getExtension ;; ret (ExtensionResult ext)
  end.

Fixpoint serve_all (rs : list Request) : state ArcGISSource (list Response) :=
  match rs with
  | [] => ret []
  | r :: rs' =>
      a <- serve r ;;
      l <- serve_all rs' ;;
      ret (a :: l)
  end.

End Host.

Arguments Profile_create {SpatialReference}.
Arguments getSRS {SpatialReference} p.
Arguments getExtent {SpatialReference} p.
Arguments getNumTiles {SpatialReference} p lod.
Arguments mkMapService {SpatialReference}.
Arguments getProfile {SpatialReference} m.
Arguments isTiled {SpatialReference} m.
Arguments getTileInfo {SpatialReference} m.
Arguments getError {SpatialReference} m.
Arguments mkHost {SpatialReference Image ProgressCallback}.
Arguments Profile_create_named {SpatialReference Image ProgressCallback} h.
Arguments getGlobalGeodeticProfile {SpatialReference Image ProgressCallback} h.
Arguments MapService_init {SpatialReference Image ProgressCallback} h.
Arguments HTTPClient_readImageFile {SpatialReference Image ProgressCallback} h.
Arguments mkArcGISSource {SpatialReference}.
Arguments getOptions {SpatialReference} a.
Arguments TileSource_profile {SpatialReference} a.
Arguments _url {SpatialReference} a.
Arguments _profile_str {SpatialReference} a.
Arguments _map {SpatialReference} a.
Arguments _layer {SpatialReference} a.
Arguments _format {SpatialReference} a.
Arguments _map_service {SpatialReference} a.
Arguments setProfile {SpatialReference} profile.
Arguments ArcGISSource_new {SpatialReference Image ProgressCallback} host
  options.
Arguments expand_to_square {SpatialReference} profile.
Arguments initialize {SpatialReference Image ProgressCallback} host
  referenceURI overrideProfile.
Arguments getPixelsPerTile {SpatialReference}.
Arguments url_format {SpatialReference} this.
Arguments createImage_url {SpatialReference} this key.
Arguments createImage {SpatialReference Image ProgressCallback} host
  key progress.
Arguments createHeightField {SpatialReference} HeightField {ProgressCallback}
  key progress.
Arguments getExtension {SpatialReference}.
Arguments CreateImage {ProgressCallback} key progress.
Arguments CreateHeightField {ProgressCallback} key progress.
Arguments GetPixelsPerTile {ProgressCallback}.
Arguments GetExtension {ProgressCallback}.
Arguments ImageResult {Image HeightField} image.
Arguments HeightFieldResult {Image HeightField} hf.
Arguments PixelsResult {Image HeightField} n.
Arguments ExtensionResult {Image HeightField} ext.
Arguments serve {SpatialReference Image} HeightField {ProgressCallback}
  host r.
Arguments serve_all {SpatialReference Image} HeightField {ProgressCallback}
  host rs.

(** ** class ReaderWriterArcGIS : public osgDB::ReaderWriter *)

(** What the reader-writer calls and does not define: the base class
    [osgDB::ReaderWriter] (its state when built, [supportsExtension( ext,
    description )] that writes it, [acceptsExtension( ext )] that reads it)
    and [osgDB::getLowerCaseFileExtension( file_name )]. *)
Record OsgDB := mkOsgDB {
  ReaderWriter : Type;
  ReaderWriter_new : ReaderWriter;
  supportsExtension : string -> string -> ReaderWriter -> ReaderWriter;
  acceptsExtension : ReaderWriter -> string -> bool;
  getLowerCaseFileExtension : string -> string
}.

(** The constructor [ReaderWriterArcGIS()]. *)
Definition ReaderWriterArcGIS_new (db : OsgDB) : ReaderWriter db :=
  supportsExtension db "osgearth_arcgis" "ArcGIS Server" (ReaderWriter_new db).

(** [const char* className()]. *)
Definition className : string := "ArcGIS Server REST ReaderWriter".

(** [osgDB::ReaderWriter::ReadResult], as [readObject] builds it: the status
    [FILE_NOT_HANDLED], or the object read. *)
Inductive ReadResult (SpatialReference : Type) : Type :=
| FILE_NOT_HANDLED
| ReadObject (object : ArcGISSource SpatialReference).

Arguments FILE_NOT_HANDLED {SpatialReference}.
Arguments ReadObject {SpatialReference} object.

(** [ReadResult readObject( file_name, options ) const]: the result, and the
    lines that the constructor of the object writes on
    [osg::notify(osg::WARN)]. *)
Definition readObject {SpatialReference Image ProgressCallback : Type}
    (db : OsgDB) (host : Host SpatialReference Image ProgressCallback)
    (this : ReaderWriter db) (file_name : string) (options : option Options)
  : ReadResult SpatialReference * list string :=
  if negb (acceptsExtension db this (getLowerCaseFileExtension db file_name))
  then (FILE_NOT_HANDLED, [])
  else
    let '(object, log) := ArcGISSource_new host options in
    (ReadObject object, log).

(** ** A concrete host

    A host for the examples: a reference system is its name, an image is the
    URL it was fetched from (so the result of [createImage] shows what was
    fetched), the HTTP client answers every request, no profile has a name,
    and the registry has no global profile. *)

Definition fetch_url (url : string) (_ : option Options) (_ : unit)
  : option string := Some url.

Definition no_named_profile (_ : string) : option (Profile string) := None.

Definition example_host (init : string -> bool * MapService string)
  : Host string string unit :=
  mkHost no_named_profile None init fetch_url.

(** The example of a service URL that the source gives. *)
Definition base_url : string :=
  "http://server/ArcGIS/rest/services/Layer/MapServer".

Definition server_options : option Options :=
  Some {| getPluginData := fun name =>
            if name =? PROPERTY_URL then Some base_url else None |}.

(** The whole world in degrees, two tiles by one at level 0. *)
Definition world_profile : Profile string :=
  Profile_create "EPSG:4326" (-180) (-90) 180 90 2 1.

(** The extent (0, 0, 1, 0.3), the last bound being the double nearest to
    0.3. *)
Definition thin_profile : Profile string :=
  Profile_create "EPSG:4326" 0 0 1 0x1.3333333333333p-2 1 1.

(** A service that answers its metadata request: dynamic export, or tiles in
    the given format. *)
Definition export_service (p : Profile string) (_ : string)
  : bool * MapService string :=
  (true, mkMapService (Some p) false (mkTileInfo 256 "PNG24") "").

Definition tile_service (format : string) (_ : string)
  : bool * MapService string :=
  (true, mkMapService (Some world_profile) true (mkTileInfo 256 format) "").

(** A service whose metadata request fails. *)
Definition failed_service (_ : string) : bool * MapService string :=
  (false, mkMapService None false (mkTileInfo 0 "") "no response").

Definition export_host (p : Profile string) : Host string string unit :=
  example_host (export_service p).

Definition tile_host (format : string) : Host string string unit :=
  example_host (tile_service format).

Definition failed_host : Host string string unit :=
  example_host failed_service.

(** The objects the constructor builds on these services. *)
Definition export_source (p : Profile string) : ArcGISSource string :=
  fst (ArcGISSource_new (export_host p) server_options).

Definition tile_source (format : string) : ArcGISSource string :=
  fst (ArcGISSource_new (tile_host format) server_options).

Definition failed_source : ArcGISSource string :=
  fst (ArcGISSource_new failed_host server_options).

(** The profile that [initialize] stores. *)
Definition initialized_profile (host : Host string string unit)
    (this : ArcGISSource string) : option (Profile string) :=
  TileSource_profile (execState (initialize host "" None) this).

(** Level 3, column 2, row 5, with the extent (-10, -5, 10, 5). *)
Definition key_3_5_2 : TileKey :=
  mkTileKey 3 (2, 5)%N (mkGeoExtent (-10) (-5) 10 5).

(** The bound of the spherical Mercator square, 20037508.342789244. *)
Definition mercator_bound : float := 0x1.31bf8457c1093p+24%float.

(** Level 0, with the extent of the whole spherical Mercator square. *)
Definition mercator_key : TileKey :=
  mkTileKey 0 (0, 0)%N
    (mkGeoExtent (- mercator_bound) (- mercator_bound)
       mercator_bound mercator_bound).

(** The double nearest to 0.3, and the one that follows it. *)
Definition three_tenths : float := 0x1.3333333333333p-2%float.
Definition after_three_tenths : float := 0x1.3333333333334p-2%float.

(** Level 0, with an extent from [x] to 1 in both directions. *)
Definition key_from (x : float) : TileKey :=
  mkTileKey 0 (0, 0)%N (mkGeoExtent x x 1 1).

(** Level 3, column 2, row 5 again, with another extent. *)
Definition key_3_5_2_elsewhere : TileKey :=
  mkTileKey 3 (2, 5)%N (mkGeoExtent 0 0 1 1).

(** A profile whose first bound is not a number. *)
Definition nan_profile : Profile string :=
  Profile_create "EPSG:4326" nan 0 1 1 1 1.

(** * Properties *)

(** ** Strings and integers *)

Lemma empty_spec (s : string) : empty s = true <-> s = "".
Proof. destruct s; cbn; split; congruence. Qed.

Lemma substr_png_prefix (s : string) :
  (substr s 0 3 =? "png") = prefix "png" s.
Proof.
  destruct (prefix "png" s) eqn:E.
  - apply prefix_correct in E. apply String.eqb_eq. exact E.
  - apply String.eqb_neq. intro H.
    assert (prefix "png" s = true) by (apply prefix_correct; exact H).
    congruence.
Qed.

Lemma prefix_png_length_3 (s : string) :
  prefix "png" s = true -> (3 <? String.length s)%nat = false -> s = "png".
Proof.
  intros P L. apply prefix_correct in P. cbn [String.length] in P.
  destruct s as [| a [| b [| c [| d s]]]]; cbn in P, L; try discriminate.
  exact P.
Qed.

Lemma show_int_of_N (u : N) : show_int (Z.of_N u) = show_unsigned u.
Proof. destruct u; reflexivity. Qed.

Lemma int_of_unsigned_small (u : N) :
  (u < 2 ^ 31)%N -> int_of_unsigned u = Z.of_N u.
Proof.
  intros H. unfold int_of_unsigned.
  assert (0 <= Z.of_N u < 2 ^ 31)%Z.
  { split; [lia |]. change (2 ^ 31)%Z with (Z.of_N (2 ^ 31)). lia. }
  rewrite Z.mod_small by lia.
  destruct (Z.ltb_spec (Z.of_N u) (2 ^ 31)); lia.
Qed.

Lemma string_app_empty_r (s : string) : s ++ "" = s.
Proof. induction s; cbn; congruence. Qed.

Lemma string_app_assoc (a b c : string) : (a ++ b) ++ c = a ++ b ++ c.
Proof. induction a; cbn; congruence. Qed.

Lemma string_length_app (a b : string) :
  String.length (a ++ b) = (String.length a + String.length b)%nat.
Proof. induction a; cbn; congruence. Qed.

Lemma substr_app_l (a b : string) : substr (a ++ b) 0 (String.length a) = a.
Proof.
  unfold substr. induction a as [| c a IH]; cbn.
  - now destruct b.
  - now rewrite IH.
Qed.

Lemma substr_app_r (a b : string) :
  substr (a ++ b) (String.length a) (String.length b) = b.
Proof.
  unfold substr. induction a as [| c a IH]; cbn.
  - induction b as [| c b IH]; cbn; congruence.
  - exact IH.
Qed.

(** ** Comparisons of doubles *)

Lemma SFcompare_antisym (f1 f2 : spec_float) :
  SFcompare f2 f1 = option_map CompOpp (SFcompare f1 f2).
Proof.
  destruct f1 as [s1 | s1 | | s1 m1 e1], f2 as [s2 | s2 | | s2 m2 e2];
    cbn; try reflexivity;
    try (destruct s1; reflexivity); try (destruct s2; reflexivity).
  - destruct s1, s2; reflexivity.
  - f_equal.
    change (Pos.compare_cont Eq m2 m1) with (m2 ?= m1)%positive.
    change (Pos.compare_cont Eq m1 m2) with (m1 ?= m2)%positive.
    rewrite (Z.compare_antisym e1 e2), (Pos.compare_antisym m1 m2).
    destruct s1, s2; try reflexivity;
      destruct (e1 ?= e2)%Z; cbn; try reflexivity;
      destruct (m1 ?= m2)%positive; reflexivity.
Qed.

Lemma SFcompare_Eq_sym (f1 f2 : spec_float) :
  SFcompare f1 f2 = Some Eq -> SFcompare f2 f1 = Some Eq.
Proof. intros H. now rewrite SFcompare_antisym, H. Qed.

(** [a > b] excludes [a < b]. *)
Lemma gt_not_lt (a b : float) : gt a b = true -> lt a b = false.
Proof.
  unfold lt, gt. rewrite !FloatAxioms.ltb_spec. unfold SFltb.
  rewrite (SFcompare_antisym (Prim2SF a) (Prim2SF b)).
  now destruct (SFcompare (Prim2SF a) (Prim2SF b)) as [[ | | ] |].
Qed.

(** [a == b] excludes [a < b] and [a > b]. *)
Lemma eqb_not_lt (a b : float) :
  (a =? b)%float = true -> lt a b = false /\ gt a b = false.
Proof.
  unfold lt, gt. rewrite FloatAxioms.eqb_spec, !FloatAxioms.ltb_spec.
  unfold SFeqb, SFltb.
  intros H.
  assert (E : SFcompare (Prim2SF a) (Prim2SF b) = Some Eq).
  { destruct (SFcompare (Prim2SF a) (Prim2SF b)) as [[ | | ] |];
      try discriminate; reflexivity. }
  rewrite (SFcompare_Eq_sym _ _ E), E. split; reflexivity.
Qed.

(** ** Exact operations *)

Lemma exact_op_true (op : float -> float -> float) (qop : Q -> Q -> Q)
    (a b : float) :
  exact_op op qop a b = true ->
  exists x y z,
    F2Q a = Some x /\ F2Q b = Some y /\ F2Q (op a b) = Some z /\
    (z == qop x y)%Q.
Proof.
  unfold exact_op.
  destruct (F2Q a) as [x |], (F2Q b) as [y |], (F2Q (op a b)) as [z |];
    try discriminate.
  intros H. apply Qeq_bool_iff in H. now exists x, y, z.
Qed.

Lemma exact_half_true (d : float) :
  exact_half d = true ->
  exists x z, F2Q d = Some x /\ F2Q (d / 2)%float = Some z /\ (z == x / 2)%Q.
Proof.
  unfold exact_half.
  destruct (F2Q d) as [x |], (F2Q (d / 2)%float) as [z |]; try discriminate.
  intros H. apply Qeq_bool_iff in H. now exists x, z.
Qed.

(** Two values of one double are the same rational. *)
Ltac same_value :=
  repeat match goal with
  | H1 : F2Q ?t = Some ?a, H2 : F2Q ?t = Some ?b |- _ =>
      rewrite H1 in H2; injection H2 as <-
  end.

(** Bounds moved outwards by an exact [d / 2]: the new bounds, and the length
    between them. *)
Lemma expanded_exact_values (lo hi d : float) (L H D : Q) :
  expanded_exact lo hi d = true ->
  F2Q lo = Some L -> F2Q hi = Some H -> F2Q d = Some D ->
  exists L' H' W',
    F2Q (lo - d / 2)%float = Some L' /\
    F2Q (hi + d / 2)%float = Some H' /\
    F2Q ((hi + d / 2) - (lo - d / 2))%float = Some W' /\
    (L' == L - D / 2)%Q /\ (H' == H + D / 2)%Q /\ (W' == H - L + D)%Q.
Proof.
  unfold expanded_exact. rewrite !andb_true_iff.
  intros [[[E1 E2] E3] E4] FL FH FD.
  apply exact_half_true in E1. destruct E1 as (x1 & z1 & A1 & B1 & C1).
  apply exact_op_true in E2. destruct E2 as (x2 & y2 & z2 & A2 & B2 & R2 & C2).
  apply exact_op_true in E3. destruct E3 as (x3 & y3 & z3 & A3 & B3 & R3 & C3).
  apply exact_op_true in E4. destruct E4 as (x4 & y4 & z4 & A4 & B4 & R4 & C4).
  same_value.
  exists z2, z3, z4. repeat split; try assumption.
  - now rewrite C2, C1.
  - now rewrite C3, C1.
  - rewrite C4, C3, C2, C1. field.
Qed.

(** ** Doubles of one value *)

Lemma digits2_pos_log2 (m : positive) :
  Z.pos (digits2_pos m) = (Z.log2 (Z.pos m) + 1)%Z.
Proof.
  assert (S : forall p, digits2_pos p = Pos.size p)
    by (induction p; cbn; congruence).
  rewrite S. destruct m; cbn [Z.log2 Pos.size]; lia.
Qed.

Lemma two_power_nonzero (e : Z) : ~ (2 ^ e == 0)%Q.
Proof. apply Qpower_not_0. discriminate. Qed.

(** Equal values with ordered exponents: the mantissa of the smaller exponent
    is the other one shifted. *)
Lemma scaled_mantissa (m1 m2 : positive) (e1 e2 : Z) :
  (e1 <= e2)%Z ->
  (inject_Z (Z.pos m1) * 2 ^ e1 == inject_Z (Z.pos m2) * 2 ^ e2)%Q ->
  Z.pos m1 = (Z.pos m2 * 2 ^ (e2 - e1))%Z.
Proof.
  intros LE H. apply inject_Z_injective.
  rewrite inject_Z_mult, Zpower_Qpower by lia.
  apply (Qmult_inj_r _ _ (2 ^ e1)%Q (two_power_nonzero e1)).
  rewrite H, <- Qmult_assoc, <- Qpower_plus by discriminate.
  now replace (e2 - e1 + e1)%Z with e2 by lia.
Qed.

Lemma canonical_exponent (m1 m2 : positive) (e1 e2 : Z) :
  canonical_mantissa prec emax m1 e1 = true ->
  canonical_mantissa prec emax m2 e2 = true ->
  (e1 <= e2)%Z ->
  (inject_Z (Z.pos m1) * 2 ^ e1 == inject_Z (Z.pos m2) * 2 ^ e2)%Q ->
  e1 = e2 /\ m1 = m2.
Proof.
  unfold canonical_mantissa, fexp. rewrite !Z.eqb_eq, !digits2_pos_log2.
  intros C1 C2 LE H. apply scaled_mantissa in H; [| exact LE].
  rewrite H, Z.log2_mul_pow2 in C1 by lia.
  assert (e1 = e2) by lia. subst e2. split; [reflexivity |].
  rewrite Z.sub_diag, Z.mul_1_r in H. congruence.
Qed.

Lemma finite_value_sign (s : bool) (m : positive) (e : Z) :
  let v :=
    ((if s then - inject_Z (Z.pos m) else inject_Z (Z.pos m)) * 2 ^ e)%Q in
  if s then (v < 0)%Q else (0 < v)%Q.
Proof.
  cbv zeta.
  assert (P : (0 < 2 ^ e)%Q) by (apply Qpower_0_lt; reflexivity).
  assert (M : (0 < inject_Z (Z.pos m))%Q) by reflexivity.
  pose proof (Qmult_lt_0_compat _ _ M P) as MP.
  destruct s; [| exact MP].
  setoid_replace (- inject_Z (Z.pos m) * 2 ^ e)%Q
    with (- (inject_Z (Z.pos m) * 2 ^ e))%Q by ring.
  now apply (Qopp_lt_compat 0).
Qed.

Lemma SFeqb_same (s : bool) (m : positive) (e : Z) :
  SFeqb (S754_finite s m e) (S754_finite s m e) = true.
Proof.
  unfold SFeqb. cbn. rewrite Z.compare_refl.
  change (Pos.compare_cont Eq m m) with (m ?= m)%positive.
  rewrite Pos.compare_refl. now destruct s.
Qed.

(** Two finite doubles of the same value compare equal. *)
Lemma same_value_eqb (a b : float) :
  Qeq_some (F2Q a) (F2Q b) -> (a =? b)%float = true.
Proof.
  rewrite FloatAxioms.eqb_spec. unfold F2Q.
  pose proof (Prim2SF_valid a) as Va. pose proof (Prim2SF_valid b) as Vb.
  destruct (Prim2SF a) as [s1 | s1 | | s1 m1 e1],
           (Prim2SF b) as [s2 | s2 | | s2 m2 e2];
    cbv beta iota delta [Qeq_some]; try contradiction.
  - reflexivity.
  - intros H. pose proof (finite_value_sign s2 m2 e2) as P. cbv zeta in P.
    destruct s2; rewrite <- H in P; destruct (Qlt_irrefl _ P).
  - intros H. pose proof (finite_value_sign s1 m1 e1) as P. cbv zeta in P.
    destruct s1; rewrite H in P; destruct (Qlt_irrefl _ P).
  - intros H.
    cbn in Va, Vb. unfold bounded in Va, Vb.
    apply andb_true_iff in Va, Vb. destruct Va as [C1 _], Vb as [C2 _].
    pose proof (finite_value_sign s1 m1 e1) as P1.
    pose proof (finite_value_sign s2 m2 e2) as P2. cbv zeta in P1, P2.
    assert (S : s1 = s2).
    { destruct s1, s2; try reflexivity; rewrite H in P1; exfalso;
        apply (Qlt_irrefl 0); eapply Qlt_trans; eassumption. }
    subst s2.
    assert (E : (inject_Z (Z.pos m1) * 2 ^ e1 ==
                 inject_Z (Z.pos m2) * 2 ^ e2)%Q).
    { destruct s1; [| exact H].
      rewrite <- (Qopp_involutive (inject_Z (Z.pos m1) * 2 ^ e1)),
              <- (Qopp_involutive (inject_Z (Z.pos m2) * 2 ^ e2)).
      apply Qopp_comp.
      setoid_replace (- (inject_Z (Z.pos m1) * 2 ^ e1))%Q
        with (- inject_Z (Z.pos m1) * 2 ^ e1)%Q by ring.
      setoid_replace (- (inject_Z (Z.pos m2) * 2 ^ e2))%Q
        with (- inject_Z (Z.pos m2) * 2 ^ e2)%Q by ring.
      exact H. }
    destruct (Z.le_ge_cases e1 e2) as [LE | GE].
    + destruct (canonical_exponent _ _ _ _ C1 C2 LE E) as [-> ->].
      apply SFeqb_same.
    + symmetry in E.
      destruct (canonical_exponent _ _ _ _ C2 C1 GE E) as [-> ->].
      apply SFeqb_same.
Qed.

(** ** Rounding to significant digits *)

Lemma ndigits_fuel_spec (fuel : nat) (n : Z) :
  (1 <= n < 2 ^ Z.of_nat fuel)%Z ->
  let L := Z.of_nat (ndigits_fuel fuel n) in
  (1 <= L)%Z /\ (10 ^ (L - 1) <= n < 10 ^ L)%Z.
Proof.
  revert n. induction fuel as [| f IH]; intros n [N1 N2].
  - cbn in N2. lia.
  - cbn [ndigits_fuel]. destruct (Z.ltb_spec n 10) as [Lt | Ge].
    + cbn. lia.
    + assert (B : (1 <= n / 10 < 2 ^ Z.of_nat f)%Z).
      { rewrite Nat2Z.inj_succ, Z.pow_succ_r in N2 by lia. split.
        - apply Z.div_le_lower_bound; lia.
        - apply Z.div_lt_upper_bound; lia. }
      specialize (IH _ B). cbv zeta in IH. destruct IH as [L1 [Lo Hi]].
      rewrite Nat2Z.inj_succ.
      set (L := Z.of_nat (ndigits_fuel f (n / 10))) in *.
      replace (Z.succ L - 1)%Z with (Z.succ (L - 1)) by lia.
      rewrite !Z.pow_succ_r by lia.
      pose proof (Z.div_mod n 10). pose proof (Z.mod_pos_bound n 10). lia.
Qed.

Lemma ndigits_spec (n : Z) :
  (0 < n)%Z ->
  (1 <= ndigits n)%Z /\ (10 ^ (ndigits n - 1) <= n < 10 ^ ndigits n)%Z.
Proof.
  intros N. apply ndigits_fuel_spec. split; [lia |].
  rewrite Nat2Z.inj_succ, Z2Nat.id by apply Z.log2_nonneg.
  apply Z.log2_spec. exact N.
Qed.

(** The three ways [round_sig] ends: nothing to round, rounding inside the
    decade, rounding up to the next power of ten. *)
Lemma round_sig_cases (P n k : Z) :
  (1 <= P)%Z -> (0 < n)%Z ->
  let L := ndigits n in
  let D := fst (round_sig P n k) in
  let X := snd (round_sig P n k) in
  (10 ^ (P - 1) <= D < 10 ^ P)%Z /\
  ((L <= P /\ X = L - k - 1 /\ D = n * 10 ^ (P - L))%Z \/
   (P < L /\ X = L - k - 1 /\
    2 * Z.abs (n - D * 10 ^ (L - P)) <= 10 ^ (L - P))%Z \/
   (P < L /\ X = L - k /\ D = 10 ^ (P - 1) /\
    2 * Z.abs (n - 10 ^ P * 10 ^ (L - P)) <= 10 ^ (L - P))%Z).
Proof.
  intros HP N. cbv zeta. unfold round_sig.
  destruct (ndigits_spec n N) as [L1 [Lo Hi]].
  set (L := ndigits n) in *.
  destruct (Z.leb_spec L P) as [LP | LP]; cbn [fst snd].
  - split.
    + replace (P - 1)%Z with ((L - 1) + (P - L))%Z by lia.
      replace (10 ^ P)%Z with (10 ^ L * 10 ^ (P - L))%Z
        by (rewrite <- Z.pow_add_r by lia; f_equal; lia).
      rewrite Z.pow_add_r by lia.
      assert (0 < 10 ^ (P - L))%Z by (apply Z.pow_pos_nonneg; lia).
      nia.
    + left. lia.
  - set (S := (10 ^ (L - P))%Z).
    assert (SP : (0 < S)%Z) by (apply Z.pow_pos_nonneg; lia).
    assert (E1 : (10 ^ (L - 1) = 10 ^ (P - 1) * S)%Z).
    { unfold S. rewrite <- Z.pow_add_r by lia. f_equal. lia. }
    assert (E2 : (10 ^ L = 10 ^ P * S)%Z).
    { unfold S. rewrite <- Z.pow_add_r by lia. f_equal. lia. }
    assert (E3 : (10 ^ P = 10 * 10 ^ (P - 1))%Z).
    { rewrite <- Z.pow_succ_r by lia. f_equal. lia. }
    assert (PP : (0 < 10 ^ (P - 1))%Z) by (apply Z.pow_pos_nonneg; lia).
    pose proof (Z.div_mod n S ltac:(lia)) as DM.
    pose proof (Z.mod_pos_bound n S SP) as RB.
    set (q := (n / S)%Z) in *. set (r := (n mod S)%Z) in *.
    assert (Q1 : (10 ^ (P - 1) <= q)%Z)
      by (apply Z.div_le_lower_bound; lia).
    assert (Q2 : (q < 10 ^ P)%Z)
      by (apply Z.div_lt_upper_bound; lia).
    set (up := ((S <? 2 * r) || ((2 * r =? S) && Z.odd q))%Z).
    assert (UP : if up then (S <= 2 * r)%Z else (2 * r <= S)%Z).
    { unfold up. destruct (Z.ltb_spec S (2 * r)); cbn [orb andb]; [lia |].
      destruct (Z.eqb_spec (2 * r) S); cbn [orb andb]; [| lia].
      destruct (Z.odd q); lia. }
    destruct up.
    + destruct (Z.eqb_spec (q + 1) (10 ^ P)) as [C | C]; cbn [fst snd].
      * split; [lia |]. right; right.
        split; [lia |]. split; [lia |]. split; [reflexivity |].
        rewrite <- C. replace (n - (q + 1) * S)%Z with (r - S)%Z by lia. lia.
      * split; [lia |]. right; left.
        split; [lia |]. split; [lia |].
        replace (n - (q + 1) * S)%Z with (r - S)%Z by lia. lia.
    + destruct (Z.eqb_spec q (10 ^ P)) as [C | C]; [lia |]. cbn [fst snd].
      split; [lia |]. right; left.
      split; [lia |]. split; [lia |].
      replace (n - q * S)%Z with r by lia. lia.
Qed.

Lemma ten_power_plus (a b : Z) : (10 ^ (a + b) == 10 ^ a * 10 ^ b)%Q.
Proof. apply Qpower_plus. discriminate. Qed.

Lemma ten_power_pos (a : Z) : (0 < 10 ^ a)%Q.
Proof. apply Qpower_0_lt. reflexivity. Qed.

Lemma ten_power_inject (a : Z) :
  (0 <= a)%Z -> (inject_Z (10 ^ a) == 10 ^ a)%Q.
Proof. intros H. now rewrite Zpower_Qpower. Qed.

(** The decimal expansion of a dyadic value is that value. *)
Lemma decimal_of_value (m : positive) (e : Z) :
  let n := fst (decimal_of m e) in
  let k := snd (decimal_of m e) in
  (0 < n)%Z /\ (inject_Z n * 10 ^ (- k) == inject_Z (Z.pos m) * 2 ^ e)%Q.
Proof.
  cbv zeta. unfold decimal_of.
  destruct (Z.leb_spec 0 e) as [E | E]; cbn [fst snd].
  - split.
    + apply Z.mul_pos_pos; [lia | apply Z.pow_pos_nonneg; lia].
    + rewrite inject_Z_mult, Zpower_Qpower by lia. cbn [Z.opp].
      change (inject_Z 2) with 2%Q. rewrite Qpower_0_r. ring.
  - split.
    + apply Z.mul_pos_pos; [lia | apply Z.pow_pos_nonneg; lia].
    + rewrite inject_Z_mult, Zpower_Qpower, Z.opp_involutive by lia.
      assert (T : (10 ^ e == 5 ^ e * 2 ^ e)%Q).
      { rewrite <- Qmult_power. reflexivity. }
      rewrite T, Qpower_opp.
      assert (F : ~ (inject_Z 5 ^ e == 0)%Q)
        by (apply Qpower_not_0; discriminate).
      change (inject_Z 5) with 5%Q in *. field. exact F.
Qed.

Lemma scaled_abs_le (z c : Z) (T : Q) :
  (0 < T)%Q -> (2 * Z.abs z <= c)%Z ->
  (Qabs (inject_Z z * T) <= (1 # 2) * (inject_Z c * T))%Q.
Proof.
  intros TP H. rewrite Qabs_Qmult, (Qabs_pos T) by now apply Qlt_le_weak.
  assert (A : (Qabs (inject_Z z) == inject_Z (Z.abs z))%Q) by reflexivity.
  rewrite A.
  assert (B : (inject_Z (2 * Z.abs z) <= inject_Z c)%Q)
    by now rewrite <- Zle_Qle.
  rewrite inject_Z_mult in B. change (inject_Z 2) with 2%Q in B.
  setoid_replace ((1 # 2) * (inject_Z c * T))%Q
    with (((1 # 2) * inject_Z c) * T)%Q by ring.
  apply Qmult_le_compat_r; [lra | now apply Qlt_le_weak].
Qed.

(** The digits of [round_sig] are [P] digits and stand for the value rounded
    to nearest: the error is at most half a unit of the last digit. *)
Lemma round_sig_accurate (P n k : Z) :
  (1 <= P)%Z -> (0 < n)%Z ->
  let D := fst (round_sig P n k) in
  let X := snd (round_sig P n k) in
  (10 ^ (P - 1) <= D < 10 ^ P)%Z /\
  (Qabs (inject_Z n * 10 ^ (- k) - inject_Z D * 10 ^ (X - P + 1))
   <= (1 # 2) * 10 ^ (X - P + 1))%Q.
Proof.
  intros HP N. cbv zeta.
  destruct (round_sig_cases P n k HP N) as [B C]. cbv zeta in B, C.
  split; [exact B |].
  set (D := fst (round_sig P n k)) in *. set (X := snd (round_sig P n k)) in *.
  set (L := ndigits n) in *.
  destruct C as [(LP & EX & ED) | [(LP & EX & ER) | (LP & EX & ED & ER)]].
  - (* nothing to round *)
    assert (Z0 : (inject_Z n * 10 ^ (- k) - inject_Z D * 10 ^ (X - P + 1)
                  == 0)%Q).
    { rewrite ED, inject_Z_mult, ten_power_inject by lia.
      replace (- k)%Z with ((P - L) + (X - P + 1))%Z by lia.
      rewrite ten_power_plus. ring. }
    rewrite Z0. pose proof (ten_power_pos (X - P + 1)) as TP. revert TP.
    generalize (10 ^ (X - P + 1))%Q. intros u TP.
    change (Qabs 0) with 0%Q. lra.
  - (* rounding inside the decade *)
    assert (U : (10 ^ (X - P + 1) == inject_Z (10 ^ (L - P)) * 10 ^ (- k))%Q).
    { rewrite ten_power_inject by lia. rewrite <- ten_power_plus.
      now replace (X - P + 1)%Z with (L - P + - k)%Z by lia. }
    rewrite U.
    setoid_replace
      (inject_Z n * 10 ^ (- k)
       - inject_Z D * (inject_Z (10 ^ (L - P)) * 10 ^ (- k)))%Q
      with (inject_Z (n - D * 10 ^ (L - P)) * 10 ^ (- k))%Q
      by (unfold Z.sub; rewrite inject_Z_plus, inject_Z_opp, inject_Z_mult;
          ring).
    apply scaled_abs_le; [apply ten_power_pos | exact ER].
  - (* rounding up to the next power of ten *)
    assert (U : (10 ^ (X - P + 1)
                 == inject_Z (10 * 10 ^ (L - P)) * 10 ^ (- k))%Q).
    { rewrite inject_Z_mult, ten_power_inject by lia.
      change (inject_Z 10) with (10 ^ 1)%Q.
      rewrite <- !ten_power_plus.
      now replace (X - P + 1)%Z with (1 + (L - P) + - k)%Z by lia. }
    rewrite U.
    assert (E3 : (10 ^ P = 10 * 10 ^ (P - 1))%Z).
    { rewrite <- Z.pow_succ_r by lia. f_equal. lia. }
    setoid_replace
      (inject_Z n * 10 ^ (- k)
       - inject_Z D * (inject_Z (10 * 10 ^ (L - P)) * 10 ^ (- k)))%Q
      with (inject_Z (n - 10 ^ P * 10 ^ (L - P)) * 10 ^ (- k))%Q
      by (rewrite ED, E3; unfold Z.sub;
          rewrite inject_Z_plus, inject_Z_opp, !inject_Z_mult; ring).
    apply scaled_abs_le; [apply ten_power_pos |].
    assert (0 < 10 ^ (L - P))%Z by (apply Z.pow_pos_nonneg; lia). lia.
Qed.

Lemma show_double_digits (P : Z) (x : float) (s : bool) (D X : Z) :
  significant_digits P x = Some (s, D, X) ->
  show_double P x = show_sign s ++ render_g P D X.
Proof.
  unfold significant_digits, show_double.
  destruct (Prim2SF x) as [s' | s' | | s' m e]; try discriminate.
  destruct (decimal_of m e) as [n k]. destruct (round_sig P n k) as [D' X'].
  intros H. injection H as -> -> ->. reflexivity.
Qed.

(** The digits written with precision [P] are [P] significant digits, and
    they stand for the value of the double rounded to nearest: the error is at
    most half a unit of the last digit written. *)
Lemma significant_digits_accurate (P : Z) (x : float) (s : bool) (D X : Z)
    (v : Q) :
  (1 <= P)%Z ->
  significant_digits P x = Some (s, D, X) -> F2Q x = Some v ->
  (10 ^ (P - 1) <= D < 10 ^ P)%Z /\
  (Qabs (v - digits_value P s D X) <= (1 # 2) * 10 ^ (X - P + 1))%Q.
Proof.
  intros HP. unfold significant_digits, F2Q, digits_value.
  destruct (Prim2SF x) as [s' | s' | | s' m e]; try discriminate.
  pose proof (decimal_of_value m e) as V. cbv zeta in V.
  destruct (decimal_of m e) as [n k]. cbn [fst snd] in V. destruct V as [N V].
  pose proof (round_sig_accurate P n k HP N) as A. cbv zeta in A.
  destruct (round_sig P n k) as [D' X']. cbn [fst snd] in A.
  intros H1 H2. injection H1 as -> -> ->. injection H2 as <-.
  destruct A as [B A]. split; [exact B |].
  rewrite V in A. destruct s; [| exact A].
  setoid_replace
    (- inject_Z (Z.pos m) * 2 ^ e - - inject_Z D * 10 ^ (X - P + 1))%Q
    with (- (inject_Z (Z.pos m) * 2 ^ e - inject_Z D * 10 ^ (X - P + 1)))%Q
    by ring.
  now rewrite Qabs_opp.
Qed.

(** ** Digits *)

Lemma digit_of_char (d : Z) :
  (0 <= d <= 9)%Z -> digit_of (digit_char d) = Some d.
Proof.
  intros H.
  assert (E : (d = 0 \/ d = 1 \/ d = 2 \/ d = 3 \/ d = 4 \/ d = 5 \/ d = 6 \/
               d = 7 \/ d = 8 \/ d = 9)%Z) by lia.
  repeat (destruct E as [-> | E]; [reflexivity |]). now subst.
Qed.

Lemma all_digits_app (a b : string) :
  all_digits (a ++ b) <-> all_digits a /\ all_digits b.
Proof. induction a; cbn; tauto. Qed.

Lemma number_app (a b : string) (acc : Z) :
  all_digits a -> number (a ++ b) acc = number b (number a acc).
Proof.
  revert acc.
  induction a as [| c a IH]; cbn [append number all_digits]; intros acc H.
  - reflexivity.
  - destruct H as [C A]. destruct (digit_of c); [now apply IH | contradiction].
Qed.

Lemma read_digits_app (a b : string) (acc : Z) :
  all_digits a ->
  read_digits (a ++ b) acc =
  let '(v, n, r) := read_digits b (number a acc) in
  (v, (String.length a + n)%nat, r).
Proof.
  revert acc.
  induction a as [| c a IH];
    cbn [append read_digits number all_digits String.length Nat.add];
    intros acc H.
  - now destruct (read_digits b acc) as [[v n] r].
  - destruct H as [C A]. destruct (digit_of c) as [d |]; [| contradiction].
    rewrite IH by exact A.
    destruct (read_digits b (number a (10 * acc + d))) as [[v n] r].
    reflexivity.
Qed.

Lemma read_digits_stop (r : string) (acc : Z) :
  no_digit_ahead r -> read_digits r acc = (acc, O, r).
Proof. destruct r as [| c r]; cbn; intros H; [| rewrite H]; reflexivity. Qed.

(** A run of digits followed by something else is read to its end. *)
Lemma read_digits_run (a r : string) (acc : Z) :
  all_digits a -> no_digit_ahead r ->
  read_digits (a ++ r) acc = (number a acc, String.length a, r).
Proof.
  intros A R. rewrite read_digits_app, read_digits_stop by assumption.
  now rewrite Nat.add_0_r.
Qed.

Lemma all_digits_digits (n : nat) (D : Z) : all_digits (digits n D).
Proof.
  revert D. induction n as [| n IH]; intros D; cbn; [exact I |].
  apply all_digits_app. split; [apply IH |]. cbn. split; [| exact I].
  rewrite digit_of_char; [discriminate |].
  pose proof (Z.mod_pos_bound D 10). lia.
Qed.

Lemma length_digits (n : nat) (D : Z) : String.length (digits n D) = n.
Proof.
  revert D. induction n as [| n IH]; intros D; cbn; [reflexivity |].
  rewrite string_length_app, IH. cbn. lia.
Qed.

Lemma number_digits (n : nat) (D acc : Z) :
  number (digits n D) acc = (acc * 10 ^ Z.of_nat n + D mod 10 ^ Z.of_nat n)%Z.
Proof.
  revert D acc. induction n as [| n IH]; intros D acc.
  - cbn. rewrite Z.mod_1_r. lia.
  - cbn [digits]. rewrite number_app by apply all_digits_digits.
    rewrite IH. cbn [number]. rewrite digit_of_char
      by (pose proof (Z.mod_pos_bound D 10); lia).
    rewrite Nat2Z.inj_succ, Z.pow_succ_r by lia.
    rewrite (Z.rem_mul_r D 10 (10 ^ Z.of_nat n)) by lia. lia.
Qed.

Lemma digits_split (a b : nat) (D : Z) :
  digits (a + b) D = digits a (D / 10 ^ Z.of_nat b) ++ digits b D.
Proof.
  revert D. induction b as [| b IH]; intros D.
  - rewrite Nat.add_0_r. cbn. now rewrite Z.div_1_r, string_app_empty_r.
  - rewrite Nat.add_succ_r. cbn [digits]. rewrite IH, string_app_assoc.
    rewrite Z.div_div, Nat2Z.inj_succ, Z.pow_succ_r by lia.
    reflexivity.
Qed.

Lemma all_digits_zeros (j : nat) : all_digits (zeros j).
Proof. induction j; cbn; [exact I | split; [discriminate | assumption]]. Qed.

Lemma length_zeros (j : nat) : String.length (zeros j) = j.
Proof. induction j; cbn; congruence. Qed.

Lemma number_zeros (j : nat) (acc : Z) :
  number (zeros j) acc = (acc * 10 ^ Z.of_nat j)%Z.
Proof.
  revert acc. induction j as [| j IH]; intros acc.
  - cbn. lia.
  - cbn [zeros number]. change (digit_of "0") with (Some 0%Z). cbn iota.
    rewrite IH, Nat2Z.inj_succ, Z.pow_succ_r by lia. lia.
Qed.

(** What [strip_trailing_zeros] removes is zeros. *)
Lemma strip_trailing_zeros_app (s : string) :
  exists j, s = strip_trailing_zeros s ++ zeros j.
Proof.
  induction s as [| c s [j IH]].
  - now exists O.
  - cbn. destruct (Ascii.eqb c "0" && empty (strip_trailing_zeros s)) eqn:E.
    + apply andb_true_iff in E. destruct E as [C T].
      apply Ascii.eqb_eq in C. subst c.
      destruct (strip_trailing_zeros s); [| discriminate].
      exists (S j). cbn in *. now rewrite <- IH.
    + exists j. cbn. now rewrite <- IH.
Qed.

(** ** Reading what [render_g] writes *)

Lemma mantissa_ends_no_digit (s : string) :
  mantissa_ends s -> no_digit_ahead s.
Proof. destruct s; cbn; tauto. Qed.

(** An integer part and a fraction written by [with_fraction] are read back
    as one integer [M] with [nf] digits after the point, the zeros that were
    dropped being the only difference with the digits given. *)
Lemma read_mantissa_with_fraction (int_part frac tail : string) :
  all_digits int_part -> int_part <> "" -> all_digits frac ->
  mantissa_ends tail ->
  exists M nf,
    read_mantissa (with_fraction int_part frac ++ tail) = Some (M, nf, tail) /\
    (nf <= String.length frac)%nat /\
    (M * 10 ^ Z.of_nat (String.length frac - nf) =
     number (int_part ++ frac) 0)%Z.
Proof.
  intros AI NE AF MT. unfold with_fraction.
  destruct (strip_trailing_zeros_app frac) as [j SJ].
  set (frac' := strip_trailing_zeros frac) in *.
  assert (AF' : all_digits frac').
  { rewrite SJ in AF. now apply all_digits_app in AF. }
  assert (LI : String.length int_part <> O)
    by (destruct int_part; cbn; congruence).
  assert (LF : String.length frac = (String.length frac' + j)%nat)
    by (rewrite SJ at 1; now rewrite string_length_app, length_zeros).
  assert (NF : number (int_part ++ frac) 0 =
               (number frac' (number int_part 0) * 10 ^ Z.of_nat j)%Z).
  { rewrite number_app by exact AI. rewrite SJ at 1.
    now rewrite number_app, number_zeros by exact AF'. }
  unfold read_mantissa.
  destruct (empty frac') eqn:E.
  - destruct frac'; [| discriminate]. cbn [String.length Nat.add] in LF.
    exists (number int_part 0), O.
    rewrite read_digits_run
      by (try assumption; now apply mantissa_ends_no_digit).
    destruct (Nat.eqb_spec (String.length int_part) 0) as [Z0 | _];
      [contradiction |].
    split; [| split; [lia |]].
    + destruct tail as [| c t]; [reflexivity |].
      destruct MT as [_ MT]. now rewrite MT.
    + rewrite Nat.sub_0_r, LF, NF. reflexivity.
  - exists (number frac' (number int_part 0)), (String.length frac').
    rewrite !string_app_assoc.
    change ("." ++ frac' ++ tail) with (String "." (frac' ++ tail)).
    rewrite read_digits_run by (try assumption; reflexivity).
    destruct (Nat.eqb_spec (String.length int_part) 0) as [Z0 | _];
      [contradiction |].
    change (Ascii.eqb "." ".") with true. cbn iota.
    rewrite read_digits_run
      by (try assumption; now apply mantissa_ends_no_digit).
    split; [reflexivity | split; [lia |]].
    rewrite NF. f_equal. f_equal. lia.
Qed.

Lemma read_exponent_show (X : Z) : read_exponent (show_exponent X) = Some X.
Proof.
  unfold show_exponent. set (a := Z.abs X).
  set (n := Z.to_nat (Z.max 2 (ndigits a))).
  assert (N2 : (2 <= n)%nat) by (unfold n; lia).
  assert (B : (0 <= a < 10 ^ Z.of_nat n)%Z).
  { split; [unfold a; lia |].
    destruct (Z.eq_dec a 0) as [-> | NZ]; [apply Z.pow_pos_nonneg; lia |].
    destruct (ndigits_spec a ltac:(unfold a in *; lia)) as [L1 [_ Hi]].
    eapply Z.lt_le_trans; [exact Hi |].
    apply Z.pow_le_mono_r; [lia |]. unfold n. lia. }
  assert (R : read_digits (digits n a) 0 = (a, n, "")).
  { rewrite <- (string_app_empty_r (digits n a)).
    rewrite read_digits_run by (try apply all_digits_digits; exact I).
    rewrite number_digits, length_digits, Z.mod_small by exact B.
    reflexivity. }
  destruct (Z.ltb_spec X 0) as [Neg | Pos];
    cbn [append read_exponent]; rewrite R;
    destruct (Nat.eqb_spec n 0) as [Z0 | _]; try lia;
    cbn; f_equal; unfold a; lia.
Qed.

(** The two parts of [P] digits cut after the first [i]. *)
Lemma digits_cut (p i : nat) (D : Z) :
  (i <= p)%nat ->
  let ds := digits p D in
  all_digits (substr ds 0 i) /\ all_digits (substr ds i (p - i)) /\
  String.length (substr ds 0 i) = i /\
  String.length (substr ds i (p - i)) = (p - i)%nat /\
  substr ds 0 i ++ substr ds i (p - i) = ds.
Proof.
  intros LE. cbv zeta.
  assert (E : digits p D = digits i (D / 10 ^ Z.of_nat (p - i))
                             ++ digits (p - i) D).
  { rewrite <- digits_split. f_equal. lia. }
  rewrite E.
  set (a := digits i _). set (b := digits (p - i) D).
  assert (LA : String.length a = i) by apply length_digits.
  assert (LB : String.length b = (p - i)%nat) by apply length_digits.
  assert (SA : substr (a ++ b) 0 i = a)
    by (rewrite <- LA; apply substr_app_l).
  assert (SB : substr (a ++ b) i (p - i) = b).
  { pose proof (substr_app_r a b) as R. now rewrite LA, LB in R. }
  rewrite SA, SB.
  repeat split; try assumption; apply all_digits_digits.
Qed.

(** What [render_g] writes: an integer part and a fraction through
    [with_fraction], then an exponent or nothing; the digits are those of [D],
    and the exponent read, less the length of the fraction, is the power of
    ten that the last digit counts. *)
Lemma render_g_parts (P D X : Z) :
  (1 <= P)%Z -> (10 ^ (P - 1) <= D < 10 ^ P)%Z ->
  exists int_part frac tail e,
    render_g P D X = with_fraction int_part frac ++ tail /\
    all_digits int_part /\ int_part <> "" /\ all_digits frac /\
    mantissa_ends tail /\ read_exponent tail = Some e /\
    number (int_part ++ frac) 0 = D /\
    (e - Z.of_nat (String.length frac) = X - P + 1)%Z.
Proof.
  intros HP HD. unfold render_g.
  set (p := Z.to_nat P).
  assert (PP : Z.of_nat p = P) by (unfold p; lia).
  assert (ND : number (digits p D) 0 = D).
  { rewrite number_digits, PP, Z.mod_small; lia. }
  destruct ((-4 <=? X) && (X <? P))%Z eqn:F.
  - apply andb_true_iff in F. destruct F as [F1 F2].
    apply Z.leb_le in F1. apply Z.ltb_lt in F2.
    destruct (Z.leb_spec 0 X) as [X0 | X0].
    + set (i := S (Z.to_nat X)).
      destruct (digits_cut p i D ltac:(unfold i; lia))
        as (A1 & A2 & L1 & L2 & E).
      exists (substr (digits p D) 0 i), (substr (digits p D) i (p - i)), "",
        0%Z.
      rewrite string_app_empty_r, E.
      repeat split; try assumption; try reflexivity.
      * intros H. rewrite H in L1. discriminate L1.
      * rewrite L2. unfold i. lia.
    + exists "0", (zeros (Z.to_nat (- X - 1)) ++ digits p D), "", 0%Z.
      rewrite string_app_empty_r.
      repeat split; try reflexivity; try discriminate.
      * apply all_digits_app. split;
          [apply all_digits_zeros | apply all_digits_digits].
      * change ("0" ++ zeros (Z.to_nat (- X - 1)) ++ digits p D)
          with (zeros (S (Z.to_nat (- X - 1))) ++ digits p D).
        rewrite number_app, number_zeros by apply all_digits_zeros.
        exact ND.
      * rewrite string_length_app, length_zeros, length_digits. lia.
  - destruct (digits_cut p 1 D ltac:(lia)) as (A1 & A2 & L1 & L2 & E).
    exists (substr (digits p D) 0 1), (substr (digits p D) 1 (p - 1)),
      (show_exponent X), X.
    rewrite E.
    repeat split; try assumption; try reflexivity.
    + intros H. rewrite H in L1. discriminate L1.
    + apply read_exponent_show.
    + rewrite L2. lia.
Qed.

Lemma read_sign_digit (c : ascii) (r : string) :
  digit_of c <> None -> read_sign (String c r) = (false, String c r).
Proof.
  intros H. cbn. destruct (Ascii.eqb_spec c "-") as [-> | _];
    [now destruct H | reflexivity].
Qed.

Lemma with_fraction_head (int_part frac tail : string) :
  all_digits int_part -> int_part <> "" ->
  exists c r, with_fraction int_part frac ++ tail = String c r /\
              digit_of c <> None.
Proof.
  intros A NE. destruct int_part as [| c i]; [contradiction |].
  destruct A as [C _]. unfold with_fraction.
  destruct (empty (strip_trailing_zeros frac)); cbn; eauto.
Qed.

Lemma scaled_digits (M D e : Z) (nf L : nat) :
  (nf <= L)%nat -> (M * 10 ^ Z.of_nat (L - nf) = D)%Z ->
  (inject_Z M * 10 ^ (e - Z.of_nat nf)
   == inject_Z D * 10 ^ (e - Z.of_nat L))%Q.
Proof.
  intros LE <-. rewrite inject_Z_mult, ten_power_inject by lia.
  rewrite <- Qmult_assoc, <- ten_power_plus.
  now replace (Z.of_nat (L - nf) + (e - Z.of_nat L))%Z
    with (e - Z.of_nat nf)%Z by lia.
Qed.

(** The numeral written for the digits [D] and the exponent [X] denotes
    [D * 10^(X - P + 1)], with the sign written before it. *)
Lemma read_decimal_render (P D X : Z) (s : bool) :
  (1 <= P)%Z -> (10 ^ (P - 1) <= D < 10 ^ P)%Z ->
  exists q,
    read_decimal (show_sign s ++ render_g P D X) = Some q /\
    (q == digits_value P s D X)%Q.
Proof.
  intros HP HD.
  destruct (render_g_parts P D X HP HD)
    as (ip & fr & tl & e & R & AI & NE & AF & MT & RE & ND & EX).
  destruct (read_mantissa_with_fraction ip fr tl AI NE AF MT)
    as (M & nf & RM & LE & MV).
  destruct (with_fraction_head ip fr tl AI NE) as (c & r & H & C).
  assert (S : read_sign (show_sign s ++ render_g P D X)
              = (s, render_g P D X)).
  { rewrite R, H. destruct s; [reflexivity |]. now apply read_sign_digit. }
  unfold read_decimal. rewrite S, R, RM, RE.
  eexists. split; [reflexivity |].
  unfold digits_value. rewrite <- EX. rewrite ND in MV.
  pose proof (scaled_digits M D e nf (String.length fr) LE MV) as Q.
  destruct s; [| exact Q].
  setoid_replace (- inject_Z M * 10 ^ (e - Z.of_nat nf))%Q
    with (- (inject_Z M * 10 ^ (e - Z.of_nat nf)))%Q by ring.
  rewrite Q. ring.
Qed.

(** What is written for a finite double with precision [P] is a numeral; it
    denotes zero for a zero, and otherwise the [P] significant digits of
    [significant_digits], which are the value rounded to nearest. *)
Lemma show_double_read (P : Z) (x : float) (v : Q) :
  (1 <= P)%Z -> F2Q x = Some v ->
  exists q,
    read_decimal (show_double P x) = Some q /\
    (((v == 0)%Q /\ (q == 0)%Q) \/
     exists s D X,
       significant_digits P x = Some (s, D, X) /\
       (q == digits_value P s D X)%Q /\
       (10 ^ (P - 1) <= D < 10 ^ P)%Z /\
       (Qabs (v - q) <= (1 # 2) * 10 ^ (X - P + 1))%Q).
Proof.
  intros HP F.
  destruct (Prim2SF x) as [s | s | | s m e] eqn:E;
    try (unfold F2Q in F; rewrite E in F; discriminate F).
  - unfold F2Q in F. rewrite E in F. injection F as <-.
    unfold show_double. rewrite E.
    destruct s; eexists; (split; [reflexivity |]); left; split; reflexivity.
  - assert (SD : exists D X, significant_digits P x = Some (s, D, X)).
    { unfold significant_digits. rewrite E.
      destruct (decimal_of m e) as [n k].
      destruct (round_sig P n k) as [D X]. now exists D, X. }
    destruct SD as (D & X & SD).
    destruct (significant_digits_accurate P x s D X v HP SD F) as [B A].
    destruct (read_decimal_render P D X s HP B) as (q & R & Q).
    exists q. rewrite (show_double_digits P x s D X SD).
    split; [exact R |]. right. exists s, D, X.
    repeat split; try assumption; try apply B. now rewrite Q.
Qed.

(** ** Lower case *)

Lemma tolower_tolower (c : ascii) : tolower (tolower c) = tolower c.
Proof. destruct c as [[] [] [] [] [] [] [] []]; reflexivity. Qed.

Lemma transform_tolower_twice (s : string) :
  transform tolower (transform tolower s) = transform tolower s.
Proof.
  induction s as [| c s IH]; cbn; [reflexivity |].
  now rewrite tolower_tolower, IH.
Qed.

Lemma tolower_fixed (c : ascii) : tolower c = c -> is_upper c = false.
Proof.
  destruct c as [[] [] [] [] [] [] [] []]; cbv; congruence.
Qed.

Lemma every_lower (s : string) :
  transform tolower s = s -> every (fun c => negb (is_upper c)) s = true.
Proof.
  induction s as [| c s IH]; cbn; [reflexivity |].
  intros E. injection E as C E.
  now rewrite (tolower_fixed c C), IH.
Qed.

Lemma length_transform (op : ascii -> ascii) (s : string) :
  String.length (transform op s) = String.length s.
Proof. induction s; cbn; congruence. Qed.

Lemma prefix_length (a b : string) :
  prefix a b = true -> (String.length a <= String.length b)%nat.
Proof.
  revert b. induction a as [| c a IH]; intros [| d b] H; cbn in *;
    try lia; try discriminate H.
  destruct (ascii_dec c d); [| discriminate H].
  apply IH in H. lia.
Qed.

Lemma prefix_app (a b : string) : prefix a (a ++ b) = true.
Proof.
  induction a as [| c a IH]; cbn; [now destruct b |].
  destruct (ascii_dec c c); [exact IH | contradiction].
Qed.

(** ** Doubles that are not numbers *)

Lemma SFltb_nan_l (y : spec_float) : SFltb S754_nan y = false.
Proof. reflexivity. Qed.

Lemma SFltb_nan_r (x : spec_float) : SFltb x S754_nan = false.
Proof. destruct x; reflexivity. Qed.

Lemma is_nan_spec (x : float) :
  is_nan x = true <-> Prim2SF x = S754_nan.
Proof.
  unfold is_nan. rewrite FloatAxioms.eqb_spec.
  destruct (Prim2SF x) as [s | s | | s m e] eqn:E; cbn.
  - destruct s; cbn; split; discriminate.
  - destruct s; cbn; split; discriminate.
  - split; reflexivity.
  - change (negb (SFeqb (S754_finite s m e) (S754_finite s m e)) = true
            <-> S754_finite s m e = S754_nan).
    rewrite SFeqb_same. cbn. split; discriminate.
Qed.

Lemma sub_nan (a b : float) :
  is_nan a = true \/ is_nan b = true -> is_nan (a - b) = true.
Proof.
  rewrite !is_nan_spec, FloatAxioms.sub_spec.
  intros [H | H]; rewrite H.
  - reflexivity.
  - destruct (Prim2SF a); reflexivity.
Qed.

Lemma lt_nan (a b : float) :
  is_nan a = true \/ is_nan b = true -> lt a b = false /\ gt a b = false.
Proof.
  rewrite !is_nan_spec. unfold lt, gt. rewrite !FloatAxioms.ltb_spec.
  intros [H | H]; rewrite H; split;
    auto using SFltb_nan_l, SFltb_nan_r.
Qed.

(** ** Characters and fields *)

Lemma every_app (f : ascii -> bool) (a b : string) :
  every f (a ++ b) = every f a && every f b.
Proof.
  induction a as [| c a IH]; cbn; [reflexivity |].
  now rewrite IH, andb_assoc.
Qed.

Lemma every_impl (f g : ascii -> bool) (s : string) :
  (forall c, f c = true -> g c = true) ->
  every f s = true -> every g s = true.
Proof.
  intros I. induction s as [| c s IH]; cbn; [reflexivity |].
  rewrite !andb_true_iff. intros [F E]. auto.
Qed.

Lemma every_substring (f : ascii -> bool) (s : string) (n m : nat) :
  every f s = true -> every f (substring n m s) = true.
Proof.
  revert n m. induction s as [| c s IH]; intros n m.
  - destruct n, m; reflexivity.
  - cbn [every]. rewrite andb_true_iff. intros [F E].
    destruct n as [| n]; cbn [substring].
    + destruct m as [| m]; [reflexivity |].
      cbn [every]. rewrite F. cbn. now apply IH.
    + now apply IH.
Qed.

Lemma every_strip_trailing_zeros (f : ascii -> bool) (s : string) :
  every f s = true -> every f (strip_trailing_zeros s) = true.
Proof.
  destruct (strip_trailing_zeros_app s) as [j E].
  intros H. rewrite E, every_app in H.
  apply andb_true_iff in H. apply H.
Qed.

Lemma numeral_char_digit (c : ascii) :
  digit_of c <> None -> numeral_char c = true.
Proof. unfold numeral_char. now destruct (digit_of c). Qed.

Lemma every_all_digits (s : string) :
  all_digits s -> every numeral_char s = true.
Proof.
  induction s as [| c s IH]; cbn; [reflexivity |].
  intros [D A]. now rewrite numeral_char_digit, IH.
Qed.

Lemma every_with_fraction (int_part frac : string) :
  every numeral_char int_part = true -> every numeral_char frac = true ->
  every numeral_char (with_fraction int_part frac) = true.
Proof.
  intros I F. unfold with_fraction.
  destruct (empty (strip_trailing_zeros frac)); [exact I |].
  rewrite !every_app, I, every_strip_trailing_zeros by exact F.
  reflexivity.
Qed.

Lemma every_digits (n : nat) (D : Z) : every numeral_char (digits n D) = true.
Proof. apply every_all_digits, all_digits_digits. Qed.

Lemma every_show_exponent (X : Z) :
  every numeral_char (show_exponent X) = true.
Proof.
  unfold show_exponent. rewrite !every_app, every_digits.
  now destruct (X <? 0)%Z.
Qed.

Lemma every_render_g (P D X : Z) : every numeral_char (render_g P D X) = true.
Proof.
  unfold render_g, substr.
  destruct ((-4 <=? X) && (X <? P))%Z.
  - destruct (0 <=? X)%Z.
    + apply every_with_fraction; apply every_substring, every_digits.
    + apply every_with_fraction; [reflexivity |].
      rewrite every_app, every_digits, andb_true_r.
      apply every_all_digits, all_digits_zeros.
  - rewrite every_app, every_show_exponent, andb_true_r.
    apply every_with_fraction; apply every_substring, every_digits.
Qed.

Lemma every_show_double (P : Z) (x : float) :
  every numeral_char (show_double P x) = true.
Proof.
  unfold show_double.
  destruct (Prim2SF x) as [s | s | | s m e]; try (now destruct s).
  - reflexivity.
  - destruct (decimal_of m e) as [n k]. destruct (round_sig P n k) as [D X].
    rewrite every_app, every_render_g. now destruct s.
Qed.

Lemma show_double_not_empty (P : Z) (x : float) :
  (1 <= P)%Z -> show_double P x <> "".
Proof.
  intros HP. destruct (F2Q x) as [v |] eqn:F.
  - destruct (show_double_read P x v HP F) as (q & R & _).
    intros E. rewrite E in R. discriminate R.
  - unfold F2Q in F. unfold show_double.
    destruct (Prim2SF x) as [s | s | | s m e]; try discriminate F.
    + now destruct s.
    + discriminate.
Qed.

Lemma numeral_char_other_than (sep c : ascii) :
  numeral_char sep = false -> numeral_char c = true -> other_than sep c = true.
Proof.
  intros S C. unfold other_than.
  destruct (Ascii.eqb c sep) eqn:E; [| reflexivity].
  apply Ascii.eqb_eq in E. congruence.
Qed.

Lemma split_at_one (sep : ascii) (a : string) :
  every (other_than sep) a = true -> split_at sep a = [a].
Proof.
  induction a as [| c a IH]; cbn; [reflexivity |].
  rewrite andb_true_iff. unfold other_than at 1. intros [C A].
  apply negb_true_iff in C. rewrite C, IH by exact A. reflexivity.
Qed.

Lemma split_at_field (sep : ascii) (a r : string) :
  every (other_than sep) a = true ->
  split_at sep (a ++ String sep r) = a :: split_at sep r.
Proof.
  induction a as [| c a IH]; cbn.
  - now rewrite Ascii.eqb_refl.
  - rewrite andb_true_iff. unfold other_than at 1. intros [C A].
    apply negb_true_iff in C. rewrite C, IH by exact A. reflexivity.
Qed.

(** A field that does not hold the separator ends at the first separator. *)
Lemma field_inj (sep : ascii) (a1 a2 r1 r2 : string) :
  every (other_than sep) a1 = true -> every (other_than sep) a2 = true ->
  a1 ++ String sep r1 = a2 ++ String sep r2 -> a1 = a2 /\ r1 = r2.
Proof.
  revert a2. induction a1 as [| c a1 IH]; intros [| d a2]; cbn;
    rewrite ?andb_true_iff; unfold other_than.
  - intros _ _ E. injection E as <-. now split.
  - intros _ [D _] E. injection E as <- _.
    rewrite Ascii.eqb_refl in D. discriminate D.
  - intros [C _] _ E. injection E as -> _.
    rewrite Ascii.eqb_refl in C. discriminate C.
  - intros [_ A1] [_ A2] E. injection E as <- E.
    destruct (IH a2 A1 A2 E) as [<- <-]. now split.
Qed.

Lemma string_app_inv_head (a b c : string) : a ++ b = a ++ c -> b = c.
Proof.
  induction a as [| x a IH]; cbn; [auto |].
  intros E. injection E. auto.
Qed.

(** ** Integers on a stream *)

Lemma all_digits_string_of_uint (d : Decimal.uint) :
  all_digits (NilEmpty.string_of_uint d).
Proof.
  induction d; cbn; [exact I | ..]; (split; [discriminate | exact IHd]).
Qed.

Lemma all_digits_show_unsigned (u : N) : all_digits (show_unsigned u).
Proof.
  unfold show_unsigned, NilZero.string_of_uint.
  destruct (N.to_uint u); try apply all_digits_string_of_uint.
  cbn. split; [discriminate | exact I].
Qed.

Lemma to_uint_not_nil (u : N) : N.to_uint u <> Decimal.Nil.
Proof.
  destruct u as [| p]; [discriminate |].
  cbn. apply DecimalPos.Unsigned.to_uint_nonnil.
Qed.

Lemma show_unsigned_inj (u u' : N) :
  show_unsigned u = show_unsigned u' -> u = u'.
Proof.
  unfold show_unsigned. intros E.
  apply DecimalN.Unsigned.to_uint_inj.
  pose proof (NilZero.usu _ (to_uint_not_nil u)) as A.
  pose proof (NilZero.usu _ (to_uint_not_nil u')) as B.
  rewrite E in A. congruence.
Qed.

Lemma show_int_cases (z : Z) :
  (z < 0)%Z /\ show_int z = String "-" (show_unsigned (Z.to_N (- z))) \/
  (0 <= z)%Z /\ show_int z = show_unsigned (Z.to_N z).
Proof.
  destruct z as [| p | p]; [right | right | left]; (split; [lia |]);
    reflexivity.
Qed.

Lemma show_int_inj (z z' : Z) : show_int z = show_int z' -> z = z'.
Proof.
  destruct (show_int_cases z) as [[S ->] | [S ->]],
           (show_int_cases z') as [[S' ->] | [S' ->]]; intros E.
  - injection E as E. apply show_unsigned_inj in E. lia.
  - pose proof (all_digits_show_unsigned (Z.to_N z')) as A.
    rewrite <- E in A. destruct A as [A _]. now contradiction A.
  - pose proof (all_digits_show_unsigned (Z.to_N z)) as A.
    rewrite E in A. destruct A as [A _]. now contradiction A.
  - apply show_unsigned_inj in E. lia.
Qed.

Lemma every_show_int (z : Z) : every numeral_char (show_int z) = true.
Proof.
  destruct (show_int_cases z) as [[_ ->] | [_ ->]]; cbn [every];
    rewrite every_all_digits by apply all_digits_show_unsigned; reflexivity.
Qed.

Lemma int_of_unsigned_inj (u u' : N) :
  (u < 2 ^ 32)%N -> (u' < 2 ^ 32)%N ->
  int_of_unsigned u = int_of_unsigned u' -> u = u'.
Proof.
  intros B B'. unfold int_of_unsigned.
  assert (Z.of_N u < 2 ^ 32)%Z
    by (change (2 ^ 32)%Z with (Z.of_N (2 ^ 32)); lia).
  assert (Z.of_N u' < 2 ^ 32)%Z
    by (change (2 ^ 32)%Z with (Z.of_N (2 ^ 32)); lia).
  rewrite !Z.mod_small by lia.
  destruct (Z.of_N u <? 2 ^ 31)%Z eqn:L, (Z.of_N u' <? 2 ^ 31)%Z eqn:L';
    rewrite ?Z.ltb_lt, ?Z.ltb_ge in *; lia.
Qed.

Lemma other_than_show_unsigned (sep : ascii) (u : N) :
  digit_of sep = None -> every (other_than sep) (show_unsigned u) = true.
Proof.
  intros S. pose proof (all_digits_show_unsigned u) as A.
  induction (show_unsigned u) as [| c s IH]; cbn; [reflexivity |].
  destruct A as [D A]. rewrite IH by exact A. unfold other_than.
  destruct (Ascii.eqb c sep) eqn:E; [| reflexivity].
  apply Ascii.eqb_eq in E. congruence.
Qed.

Lemma other_than_numeral (sep : ascii) (s : string) :
  numeral_char sep = false -> every numeral_char s = true ->
  every (other_than sep) s = true.
Proof.
  intros S. apply every_impl. intros c. now apply numeral_char_other_than.
Qed.

(** ** Numerals of one value *)

Lemma ten_power_nonzero (e : Z) : ~ (10 ^ e == 0)%Q.
Proof. apply Qpower_not_0. discriminate. Qed.

Lemma scaled_decimal (D1 D2 X1 X2 : Z) :
  (X1 <= X2)%Z ->
  (inject_Z D1 * 10 ^ X1 == inject_Z D2 * 10 ^ X2)%Q ->
  D1 = (D2 * 10 ^ (X2 - X1))%Z.
Proof.
  intros LE H. apply inject_Z_injective.
  rewrite inject_Z_mult, Zpower_Qpower by lia.
  apply (Qmult_inj_r _ _ (10 ^ X1)%Q (ten_power_nonzero X1)).
  rewrite H, <- Qmult_assoc, <- Qpower_plus by discriminate.
  now replace (X2 - X1 + X1)%Z with X2 by lia.
Qed.

Lemma signed_sign (s : bool) (n : Z) (T : Q) :
  (0 < n)%Z -> (0 < T)%Q ->
  let v := ((if s then - inject_Z n else inject_Z n) * T)%Q in
  if s then (v < 0)%Q else (0 < v)%Q.
Proof.
  intros N P. cbv zeta.
  assert (M : (0 < inject_Z n)%Q)
    by (change 0%Q with (inject_Z 0); now rewrite <- Zlt_Qlt).
  pose proof (Qmult_lt_0_compat _ _ M P) as MP.
  destruct s; [| exact MP].
  setoid_replace (- inject_Z n * T)%Q with (- (inject_Z n * T))%Q by ring.
  now apply (Qopp_lt_compat 0).
Qed.

Lemma signed_inj (s1 s2 : bool) (n1 n2 : Z) (T1 T2 : Q) :
  (0 < n1)%Z -> (0 < n2)%Z -> (0 < T1)%Q -> (0 < T2)%Q ->
  ((if s1 then - inject_Z n1 else inject_Z n1) * T1 ==
   (if s2 then - inject_Z n2 else inject_Z n2) * T2)%Q ->
  s1 = s2 /\ (inject_Z n1 * T1 == inject_Z n2 * T2)%Q.
Proof.
  intros N1 N2 P1 P2 H.
  pose proof (signed_sign s1 n1 T1 N1 P1) as S1.
  pose proof (signed_sign s2 n2 T2 N2 P2) as S2. cbv zeta in S1, S2.
  assert (S : s1 = s2).
  { destruct s1, s2; try reflexivity; rewrite H in S1; exfalso;
      apply (Qlt_irrefl 0); eapply Qlt_trans; eassumption. }
  subst s2. split; [reflexivity |].
  destruct s1; [| exact H].
  rewrite <- (Qopp_involutive (inject_Z n1 * T1)),
          <- (Qopp_involutive (inject_Z n2 * T2)).
  apply Qopp_comp.
  setoid_replace (- (inject_Z n1 * T1))%Q with (- inject_Z n1 * T1)%Q by ring.
  setoid_replace (- (inject_Z n2 * T2))%Q with (- inject_Z n2 * T2)%Q by ring.
  exact H.
Qed.

Lemma digits_value_inj (P : Z) (s1 s2 : bool) (D1 D2 X1 X2 : Z) :
  (1 <= P)%Z ->
  (10 ^ (P - 1) <= D1 < 10 ^ P)%Z -> (10 ^ (P - 1) <= D2 < 10 ^ P)%Z ->
  (digits_value P s1 D1 X1 == digits_value P s2 D2 X2)%Q ->
  s1 = s2 /\ D1 = D2 /\ X1 = X2.
Proof.
  intros HP B1 B2 H. unfold digits_value in H.
  assert (T : (0 < 10 ^ (P - 1))%Z) by (apply Z.pow_pos_nonneg; lia).
  apply signed_inj in H; try apply ten_power_pos; try lia.
  destruct H as [S H]. split; [exact S |].
  assert (K : forall D D' X X',
             (10 ^ (P - 1) <= D < 10 ^ P)%Z ->
             (10 ^ (P - 1) <= D' < 10 ^ P)%Z -> (X <= X')%Z ->
             (inject_Z D * 10 ^ (X - P + 1) ==
              inject_Z D' * 10 ^ (X' - P + 1))%Q ->
             D = D' /\ X = X').
  { intros D D' X X' B B' LE E.
    apply scaled_decimal in E; [| lia].
    replace (X' - P + 1 - (X - P + 1))%Z with (X' - X)%Z in E by lia.
    destruct (Z.eq_dec X X') as [<- | NE].
    - rewrite Z.sub_diag, Z.mul_1_r in E. now split.
    - exfalso.
      assert (G : (10 ^ 1 <= 10 ^ (X' - X))%Z)
        by (apply Z.pow_le_mono_r; lia).
      assert (W : (10 ^ P = 10 ^ (P - 1) * 10 ^ 1)%Z).
      { rewrite <- Z.pow_add_r by lia. f_equal. lia. }
      nia. }
  destruct (Z.le_ge_cases X1 X2) as [LE | GE].
  - apply (K D1 D2 X1 X2 B1 B2 LE H).
  - symmetry in H. destruct (K D2 D1 X2 X1 B2 B1 GE H). now split.
Qed.

Lemma digits_value_nonzero (P : Z) (s : bool) (D X : Z) :
  (0 < D)%Z -> ~ (digits_value P s D X == 0)%Q.
Proof.
  intros N H. unfold digits_value in H.
  pose proof (signed_sign s D (10 ^ (X - P + 1)) N (ten_power_pos _)) as S.
  cbv zeta in S. destruct s; rewrite H in S; exact (Qlt_irrefl _ S).
Qed.

(** X1: two finite doubles that precision 16 writes with the same characters
    are both zero, or have the same sign, the same 16 digits and the same
    exponent, and then differ by at most one unit of the 16th digit. *)
Theorem show_double_same_text (x y : float) (v w : Q) :
  F2Q x = Some v -> F2Q y = Some w ->
  show_double 16 x = show_double 16 y ->
  ((v == 0)%Q /\ (w == 0)%Q) \/
  exists s D X,
    significant_digits 16 x = Some (s, D, X) /\
    significant_digits 16 y = Some (s, D, X) /\
    (Qabs (v - w) <= 10 ^ (X - 15))%Q.
Proof.
  intros Fx Fy E.
  destruct (show_double_read 16 x v ltac:(lia) Fx) as (q & Rx & Cx).
  destruct (show_double_read 16 y w ltac:(lia) Fy) as (q' & Ry & Cy).
  rewrite E, Ry in Rx. injection Rx as <-.
  assert (T : (0 < 10 ^ (16 - 1))%Z) by reflexivity.
  destruct Cx as [[Vx Qx] | (s & D & X & Sx & Qx & Bx & Ax)],
           Cy as [[Vy Qy] | (s' & D' & X' & Sy & Qy & By & Ay)].
  - now left.
  - rewrite Qy in Qx. apply digits_value_nonzero in Qx; [easy | lia].
  - rewrite Qx in Qy. apply digits_value_nonzero in Qy; [easy | lia].
  - right. rewrite Qy in Qx.
    apply digits_value_inj in Qx; try assumption; try lia.
    destruct Qx as (-> & -> & ->).
    exists s, D, X. split; [exact Sx |]. split; [exact Sy |].
    replace (X - 16 + 1)%Z with (X - 15)%Z in Ax, Ay by lia.
    setoid_replace (v - w)%Q with ((v - q') + - (w - q'))%Q by ring.
    eapply Qle_trans; [apply Qabs_triangle |].
    rewrite Qabs_opp.
    generalize dependent (10 ^ (X - 15))%Q. intros T' Ax Ay.
    lra.
Qed.

(** ** Values with few decimal digits *)

(** A number of [L] digits that is [a * 10^j] for an [a] of at most [P]
    digits ends in [L - P] zeros. *)
Lemma short_decimal_multiple (P L n k a j : Z) :
  (1 <= P < L)%Z -> (10 ^ (L - 1) <= n)%Z -> (0 < a < 10 ^ P)%Z ->
  (inject_Z n * 10 ^ (- k) == inject_Z a * 10 ^ j)%Q ->
  exists m, n = (m * 10 ^ (L - P))%Z.
Proof.
  intros HP N A E.
  assert (W : (10 ^ (L - 1) = 10 ^ P * 10 ^ (L - 1 - P))%Z).
  { rewrite <- Z.pow_add_r by lia. f_equal. lia. }
  assert (G : (0 < 10 ^ (L - 1 - P))%Z) by (apply Z.pow_pos_nonneg; lia).
  destruct (Z.le_ge_cases (- k) j) as [LE | GE].
  - apply scaled_decimal in E; [| exact LE].
    destruct (Z.lt_ge_cases (j - - k) (L - P)) as [LT | GE].
    + exfalso.
      assert (T : (10 ^ (j - - k) <= 10 ^ (L - 1 - P))%Z)
        by (apply Z.pow_le_mono_r; lia).
      assert (T0 : (0 < 10 ^ (j - - k))%Z) by (apply Z.pow_pos_nonneg; lia).
      nia.
    + exists (a * 10 ^ (j - - k - (L - P)))%Z.
      rewrite <- Z.mul_assoc, <- Z.pow_add_r by lia.
      rewrite E. f_equal. f_equal. lia.
  - exfalso. symmetry in E. apply scaled_decimal in E; [| lia].
    assert (T0 : (0 < 10 ^ (- k - j))%Z) by (apply Z.pow_pos_nonneg; lia).
    nia.
Qed.

(** Rounding to [P] digits a value that has at most [P] digits changes
    nothing. *)
Lemma round_sig_exact (P n k a j : Z) :
  (1 <= P)%Z -> (0 < n)%Z -> (0 < a < 10 ^ P)%Z ->
  (inject_Z n * 10 ^ (- k) == inject_Z a * 10 ^ j)%Q ->
  let D := fst (round_sig P n k) in
  let X := snd (round_sig P n k) in
  (inject_Z D * 10 ^ (X - P + 1) == inject_Z n * 10 ^ (- k))%Q.
Proof.
  intros HP N A E. cbv zeta.
  destruct (round_sig_cases P n k HP N) as (B & C). cbv zeta in B, C.
  destruct (ndigits_spec n N) as (L1 & LB).
  set (L := ndigits n) in *.
  set (D := fst (round_sig P n k)) in *.
  set (X := snd (round_sig P n k)) in *.
  assert (S0 : (0 < 10 ^ (L - P))%Z \/ (L < P)%Z).
  { destruct (Z.lt_ge_cases L P); [now right | left].
    apply Z.pow_pos_nonneg; lia. }
  destruct C as [(LP & XE & DE) | [(PL & XE & R) | (PL & XE & DE & R)]].
  - rewrite XE, DE, inject_Z_mult, ten_power_inject by lia.
    rewrite <- Qmult_assoc, <- ten_power_plus.
    now replace (P - L + (L - k - 1 - P + 1))%Z with (- k)%Z by lia.
  - destruct (short_decimal_multiple P L n k a j) as [m M]; try lia;
      try assumption.
    destruct S0 as [S0 | ?]; [| lia].
    assert (m = D) by nia. subst m.
    rewrite M, XE, inject_Z_mult, ten_power_inject by lia.
    rewrite <- !Qmult_assoc, <- ten_power_plus.
    now replace (L - k - 1 - P + 1)%Z with (L - P + - k)%Z by lia.
  - exfalso.
    destruct (short_decimal_multiple P L n k a j) as [m M]; try lia;
      try assumption.
    destruct S0 as [S0 | ?]; [| lia].
    assert (m = 10 ^ P)%Z by nia. subst m.
    rewrite <- Z.pow_add_r in M by lia.
    replace (P + (L - P))%Z with L in M by lia. lia.
Qed.

Lemma finite_value_abs (s : bool) (m : positive) (e : Z) :
  (Qabs ((if s then - inject_Z (Z.pos m) else inject_Z (Z.pos m)) * 2 ^ e)
   == inject_Z (Z.pos m) * 2 ^ e)%Q.
Proof.
  assert (P : (0 < 2 ^ e)%Q) by (apply Qpower_0_lt; reflexivity).
  rewrite Qabs_Qmult, (Qabs_pos (2 ^ e)) by now apply Qlt_le_weak.
  destruct s; [rewrite Qabs_opp |]; reflexivity.
Qed.

Lemma significant_digits_exact (P : Z) (x : float) (s : bool) (D X : Z)
    (v : Q) (a j : Z) :
  (1 <= P)%Z ->
  significant_digits P x = Some (s, D, X) -> F2Q x = Some v ->
  (v == inject_Z a * 10 ^ j)%Q -> (Z.abs a < 10 ^ P)%Z ->
  (digits_value P s D X == v)%Q.
Proof.
  intros HP. unfold significant_digits, F2Q.
  destruct (Prim2SF x) as [s0 | s0 | | s0 m e]; try discriminate.
  pose proof (decimal_of_value m e) as Dv. cbv zeta in Dv.
  destruct (decimal_of m e) as [n k] eqn:DO. cbn [fst snd] in Dv.
  destruct Dv as [N Dv].
  intros SD F V A.
  injection F as <-.
  assert (M : (inject_Z (Z.pos m) * 2 ^ e == inject_Z (Z.abs a) * 10 ^ j)%Q).
  { rewrite <- finite_value_abs with (s := s0). rewrite V, Qabs_Qmult.
    rewrite (Qabs_pos (10 ^ j)) by apply Qlt_le_weak, ten_power_pos.
    reflexivity. }
  assert (A0 : (0 < Z.abs a)%Z).
  { destruct (Z.eq_dec a 0) as [-> | NZ]; [| lia]. exfalso.
    pose proof (finite_value_sign false m e) as S. cbv beta iota zeta in S.
    rewrite M in S. change (inject_Z (Z.abs 0)) with 0%Q in S.
    rewrite Qmult_0_l in S.
    exact (Qlt_irrefl _ S). }
  rewrite <- Dv in M.
  pose proof (round_sig_exact P n k (Z.abs a) j HP N (conj A0 A) M) as R.
  cbv zeta in R.
  destruct (round_sig P n k) as [D' X']. cbn [fst snd] in R.
  injection SD as <- <- <-.
  unfold digits_value. rewrite Dv in R.
  destruct s0; [| exact R].
  setoid_replace (- inject_Z D' * 10 ^ (X' - P + 1))%Q
    with (- (inject_Z D' * 10 ^ (X' - P + 1)))%Q by ring.
  rewrite R. ring.
Qed.

(** X2: a double whose value has at most 16 significant decimal digits (an
    integer below 10^16, a bound such as 22.5 or 0.17578125) is written with
    precision 16 exactly: the numeral denotes the value of the double. *)
Theorem show_double_short_decimal (x : float) (v : Q) (a j : Z) :
  F2Q x = Some v -> (v == inject_Z a * 10 ^ j)%Q -> (Z.abs a < 10 ^ 16)%Z ->
  exists q, read_decimal (show_double 16 x) = Some q /\ (q == v)%Q.
Proof.
  intros F V A.
  destruct (show_double_read 16 x v ltac:(lia) F) as (q & R & C).
  exists q. split; [exact R |].
  destruct C as [[V0 Q0] | (s & D & X & SD & Q & _ & _)].
  - now rewrite V0, Q0.
  - rewrite Q.
    now apply (significant_digits_exact 16 x s D X v a j).
Qed.

(** ** Rounding keeps the order *)

Lemma ten_power_le (a b : Z) : (a <= b)%Z -> (10 ^ a <= 10 ^ b)%Q.
Proof.
  intros LE.
  assert (E : (10 ^ b == 10 ^ a * inject_Z (10 ^ (b - a)))%Q).
  { rewrite ten_power_inject by lia. rewrite <- ten_power_plus.
    now replace (a + (b - a))%Z with b by lia. }
  rewrite E. clear E.
  assert (G : (1 <= 10 ^ (b - a))%Z).
  { assert (0 < 10 ^ (b - a))%Z by (apply Z.pow_pos_nonneg; lia). lia. }
  rewrite Zle_Qle in G.
  pose proof (ten_power_pos a) as T. revert G T.
  generalize (inject_Z (10 ^ (b - a))), (10 ^ a)%Q. intros g t G T.
  setoid_replace (t <= t * g)%Q with (0 <= t * (g - inject_Z 1))%Q.
  - apply Qmult_le_0_compat; lra.
  - change (inject_Z 1) with 1%Q. split; intros H; lra.
Qed.

Lemma round_sig_nearest (P n k : Z) :
  (1 <= P)%Z -> (0 < n)%Z ->
  let D := fst (round_sig P n k) in
  let X := snd (round_sig P n k) in
  rounds_to P (inject_Z n * 10 ^ (- k)) (inject_Z D * 10 ^ (X - P + 1)).
Proof.
  intros HP N. cbv zeta.
  destruct (round_sig_cases P n k HP N) as [B C].
  destruct (round_sig_accurate P n k HP N) as [_ A].
  cbv zeta in B, C, A.
  destruct (ndigits_spec n N) as (L1 & LB).
  set (D := fst (round_sig P n k)) in *. set (X := snd (round_sig P n k)) in *.
  set (L := ndigits n) in *.
  assert (T : (0 < 10 ^ (- k))%Q) by apply ten_power_pos.
  assert (Lo : (10 ^ (L - k - 1) <= inject_Z n * 10 ^ (- k))%Q).
  { replace (L - k - 1)%Z with ((L - 1) + - k)%Z by lia.
    rewrite ten_power_plus, <- (ten_power_inject (L - 1)) by lia.
    apply Qmult_le_compat_r; [| now apply Qlt_le_weak].
    rewrite <- Zle_Qle. lia. }
  assert (Hi : (inject_Z n * 10 ^ (- k) < 10 ^ (L - k - 1 + 1))%Q).
  { replace (L - k - 1 + 1)%Z with (L + - k)%Z by lia.
    rewrite ten_power_plus, <- (ten_power_inject L) by lia.
    apply Qmult_lt_compat_r; [exact T |].
    rewrite <- Zlt_Qlt. lia. }
  exists (L - k - 1)%Z.
  destruct C as [(LP & EX & ED) | [(LP & EX & ER) | (LP & EX & ED & ER)]].
  - exists D. rewrite <- EX.
    split; [lia |]. split; [reflexivity |]. split; [exact A |].
    rewrite EX. split; assumption.
  - exists D. rewrite <- EX.
    split; [lia |]. split; [reflexivity |]. split; [exact A |].
    rewrite EX. split; assumption.
  - exists (10 ^ P)%Z.
    assert (E3 : (10 ^ P = 10 * 10 ^ (P - 1))%Z).
    { rewrite <- Z.pow_succ_r by lia. f_equal. lia. }
    assert (Q : (inject_Z D * 10 ^ (X - P + 1)
                 == inject_Z (10 ^ P) * 10 ^ (L - k - 1 - P + 1))%Q).
    { rewrite ED, E3, inject_Z_mult.
      change (inject_Z 10) with (10 ^ 1)%Q.
      replace (X - P + 1)%Z with (1 + (L - k - 1 - P + 1))%Z by lia.
      rewrite ten_power_plus. ring. }
    assert (P0 : (0 < 10 ^ (P - 1))%Z) by (apply Z.pow_pos_nonneg; lia).
    split; [lia |]. split; [exact Q |]. split; [| split; assumption].
    rewrite Q.
    assert (U : (10 ^ (L - k - 1 - P + 1)
                 == inject_Z (10 ^ (L - P)) * 10 ^ (- k))%Q).
    { rewrite ten_power_inject by lia. rewrite <- ten_power_plus.
      now replace (L - k - 1 - P + 1)%Z with (L - P + - k)%Z by lia. }
    rewrite U.
    setoid_replace
      (inject_Z n * 10 ^ (- k)
       - inject_Z (10 ^ P) * (inject_Z (10 ^ (L - P)) * 10 ^ (- k)))%Q
      with (inject_Z (n - 10 ^ P * 10 ^ (L - P)) * 10 ^ (- k))%Q
      by (unfold Z.sub;
          rewrite inject_Z_plus, inject_Z_opp, !inject_Z_mult; ring).
    apply scaled_abs_le; [exact T | exact ER].
Qed.

Lemma rounds_to_positive (P : Z) (v q : Q) :
  (1 <= P)%Z -> rounds_to P v q -> (0 < q)%Q.
Proof.
  intros HP (e & Qi & B & E & _). rewrite E.
  apply Qmult_lt_0_compat; [| apply ten_power_pos].
  change 0%Q with (inject_Z 0). rewrite <- Zlt_Qlt.
  assert (0 < 10 ^ (P - 1))%Z by (apply Z.pow_pos_nonneg; lia). lia.
Qed.

Lemma rounds_to_monotone (P : Z) (v w q q' : Q) :
  (1 <= P)%Z -> rounds_to P v q -> rounds_to P w q' -> (v < w)%Q ->
  (q <= q')%Q.
Proof.
  intros HP (e & a & Ba & Ea & Aa & La & Ha) (e' & b & Bb & Eb & Ab & Lb & Hb)
    LT.
  assert (P1 : (10 ^ P = 10 * 10 ^ (P - 1))%Z).
  { rewrite <- Z.pow_succ_r by lia. f_equal. lia. }
  destruct (Z.lt_trichotomy e e') as [L | [<- | G]].
  - (* the decade of [w] is a higher one *)
    apply Qle_trans with (10 ^ (e + 1))%Q.
    + assert (E1 : (10 ^ (e + 1)
                    == inject_Z (10 ^ P) * 10 ^ (e - P + 1))%Q).
      { rewrite ten_power_inject by lia. rewrite <- ten_power_plus.
        now replace (P + (e - P + 1))%Z with (e + 1)%Z by lia. }
      rewrite Ea, E1.
      apply Qmult_le_compat_r;
        [| apply Qlt_le_weak, ten_power_pos].
      rewrite <- Zle_Qle. lia.
    + apply Qle_trans with (10 ^ e')%Q; [apply ten_power_le; lia |].
      assert (E2 : (10 ^ e'
                    == inject_Z (10 ^ (P - 1)) * 10 ^ (e' - P + 1))%Q).
      { rewrite ten_power_inject by lia. rewrite <- ten_power_plus.
        now replace (P - 1 + (e' - P + 1))%Z with e' by lia. }
      rewrite Eb, E2.
      apply Qmult_le_compat_r;
        [| apply Qlt_le_weak, ten_power_pos].
      rewrite <- Zle_Qle. lia.
  - (* one decade, one unit *)
    destruct (Z.le_gt_cases a b) as [LE | GT].
    + rewrite Ea, Eb.
      apply Qmult_le_compat_r;
        [| apply Qlt_le_weak, ten_power_pos].
      now rewrite <- Zle_Qle.
    + exfalso.
      assert (S : (inject_Z b * 10 ^ (e - P + 1) + 10 ^ (e - P + 1)
                   <= inject_Z a * 10 ^ (e - P + 1))%Q).
      { setoid_replace
          (inject_Z b * 10 ^ (e - P + 1) + 10 ^ (e - P + 1))%Q
          with (inject_Z (b + 1) * 10 ^ (e - P + 1))%Q
          by (rewrite inject_Z_plus; change (inject_Z 1) with 1%Q; ring).
        apply Qmult_le_compat_r;
          [| apply Qlt_le_weak, ten_power_pos].
        rewrite <- Zle_Qle. lia. }
      rewrite <- Ea, <- Eb in S.
      apply Qabs_Qle_condition in Aa, Ab.
      pose proof (ten_power_pos (e - P + 1)) as U. revert S Aa Ab U.
      generalize (10 ^ (e - P + 1))%Q. intros u S Aa Ab U. lra.
  - (* the decade of [w] cannot be a lower one *)
    exfalso.
    assert (T : (10 ^ (e' + 1) <= 10 ^ e)%Q) by (apply ten_power_le; lia).
    revert T La Hb LT.
    generalize (10 ^ (e' + 1))%Q, (10 ^ e)%Q. intros t t' T La Hb LT. lra.
Qed.

Lemma rounds_to_compat (P : Z) (v v' q q' : Q) :
  (v == v')%Q -> (q == q')%Q -> rounds_to P v q -> rounds_to P v' q'.
Proof.
  intros V E (e & a & B & Ea & A & Lo & Hi). exists e, a.
  rewrite <- V, <- E. repeat (split; try assumption).
Qed.

(** What [show_double] writes for a finite double, read back: zero for a
    zero, and otherwise the value rounded, with its sign. *)
Lemma show_double_rounds (P : Z) (x : float) (v : Q) :
  (1 <= P)%Z -> F2Q x = Some v ->
  exists q,
    read_decimal (show_double P x) = Some q /\
    (((v == 0)%Q /\ (q == 0)%Q) \/
     ((0 < v)%Q /\ rounds_to P v q) \/
     ((v < 0)%Q /\ rounds_to P (- v) (- q))).
Proof.
  intros HP F.
  destruct (show_double_read P x v HP F) as (q & R & C).
  exists q. split; [exact R |].
  destruct C as [Z | (s & D & X & SD & Q & _ & _)]; [left; exact Z | right].
  unfold significant_digits in SD. unfold F2Q in F.
  destruct (Prim2SF x) as [s0 | s0 | | s0 m e]; try discriminate.
  pose proof (decimal_of_value m e) as Dv. cbv zeta in Dv.
  destruct (decimal_of m e) as [n k]. cbn [fst snd] in Dv.
  destruct Dv as [N Dv].
  pose proof (round_sig_nearest P n k HP N) as RN. cbv zeta in RN.
  destruct (round_sig P n k) as [D' X']. cbn [fst snd] in RN.
  injection SD as <- <- <-. injection F as <-.
  pose proof (finite_value_sign s0 m e) as S. cbv zeta in S.
  unfold digits_value in Q.
  destruct s0; [right | left]; (split; [exact S |]).
  - apply (rounds_to_compat P _ _ _ _) with (3 := RN).
    + rewrite Dv. ring.
    + rewrite Q. ring.
  - apply (rounds_to_compat P _ _ _ _) with (3 := RN).
    + exact Dv.
    + now rewrite Q.
Qed.

(** X3: the numerals keep the order of the doubles: of two finite doubles,
    the smaller one is written, with precision 16, as a numeral that denotes
    a number not greater than the one written for the larger one; so the
    bounds of a bbox are never written in reverse order. *)
Theorem show_double_monotone (x y : float) (v w : Q) :
  F2Q x = Some v -> F2Q y = Some w -> (v < w)%Q ->
  exists q q',
    read_decimal (show_double 16 x) = Some q /\
    read_decimal (show_double 16 y) = Some q' /\
    (q <= q')%Q.
Proof.
  intros Fx Fy LT.
  assert (HP : (1 <= 16)%Z) by lia.
  destruct (show_double_rounds 16 x v HP Fx) as (q & Rx & Cx).
  destruct (show_double_rounds 16 y w HP Fy) as (q' & Ry & Cy).
  exists q, q'. split; [exact Rx |]. split; [exact Ry |].
  destruct Cx as [[Vx Qx] | [[Vx Tx] | [Vx Tx]]],
           Cy as [[Vy Qy] | [[Vy Ty] | [Vy Ty]]];
    try (pose proof (rounds_to_positive 16 _ _ HP Tx) as Px);
    try (pose proof (rounds_to_positive 16 _ _ HP Ty) as Py);
    try lra.
  - exact (rounds_to_monotone 16 v w q q' HP Tx Ty LT).
  - assert (LT' : (- w < - v)%Q) by lra.
    pose proof (rounds_to_monotone 16 _ _ _ _ HP Ty Tx LT'). lra.
Qed.

(** ** Order of doubles *)

Lemma canonical_bounds (m : positive) (e : Z) :
  canonical_mantissa prec emax m e = true ->
  (Z.pos m < 2 ^ 53)%Z /\ (emin <= e)%Z /\
  (emin < e -> 2 ^ 52 <= Z.pos m)%Z.
Proof.
  unfold canonical_mantissa, fexp. rewrite Z.eqb_eq, digits2_pos_log2.
  change prec with 53%Z. intros C.
  split; [apply Z.log2_lt_pow2; lia |]. split; [lia |].
  intros G. apply Z.log2_le_pow2; lia.
Qed.

Lemma magnitude_lt (m1 m2 : positive) (e1 e2 : Z) :
  canonical_mantissa prec emax m1 e1 = true ->
  canonical_mantissa prec emax m2 e2 = true ->
  (e1 < e2)%Z \/ (e1 = e2 /\ (m1 < m2)%positive) ->
  (inject_Z (Z.pos m1) * 2 ^ e1 < inject_Z (Z.pos m2) * 2 ^ e2)%Q.
Proof.
  intros C1 C2 H.
  assert (P : (0 < 2 ^ e1)%Q) by (apply Qpower_0_lt; reflexivity).
  destruct H as [LT | [<- LT]].
  - apply canonical_bounds in C1, C2.
    destruct C1 as (B1 & E1 & _), C2 as (_ & _ & B2).
    assert (G : (2 ^ 1 <= 2 ^ (e2 - e1))%Z) by (apply Z.pow_le_mono_r; lia).
    assert (M : (Z.pos m1 < Z.pos m2 * 2 ^ (e2 - e1))%Z) by nia.
    setoid_replace (inject_Z (Z.pos m2) * 2 ^ e2)%Q
      with (inject_Z (Z.pos m2 * 2 ^ (e2 - e1)) * 2 ^ e1)%Q.
    + apply Qmult_lt_compat_r; [exact P | now rewrite <- Zlt_Qlt].
    + rewrite inject_Z_mult, Zpower_Qpower by lia.
      rewrite <- Qmult_assoc, <- Qpower_plus by discriminate.
      now replace (e2 - e1 + e1)%Z with e2 by lia.
  - apply Qmult_lt_compat_r; [exact P |]. rewrite <- Zlt_Qlt. lia.
Qed.

Lemma SFcompare_magnitude (m1 m2 : positive) (e1 e2 : Z) :
  match (e1 ?= e2)%Z with
  | Eq => Pos.compare_cont Eq m1 m2
  | Lt => Lt
  | Gt => Gt
  end = Lt ->
  (e1 < e2)%Z \/ (e1 = e2 /\ (m1 < m2)%positive).
Proof.
  destruct (Z.compare_spec e1 e2) as [E | L | G]; intros H.
  - right. split; [exact E |]. exact H.
  - now left.
  - discriminate H.
Qed.

Lemma SFcompare_magnitude_opp (m1 m2 : positive) (e1 e2 : Z) :
  match (e1 ?= e2)%Z with
  | Eq => CompOpp (Pos.compare_cont Eq m1 m2)
  | Lt => Gt
  | Gt => Lt
  end = Lt ->
  (e2 < e1)%Z \/ (e2 = e1 /\ (m2 < m1)%positive).
Proof.
  destruct (Z.compare_spec e1 e2) as [E | L | G]; intros H.
  - right. split; [now symmetry |].
    apply Pos.gt_lt. unfold Pos.gt, Pos.compare.
    destruct (Pos.compare_cont Eq m1 m2); try discriminate H. reflexivity.
  - discriminate H.
  - now left.
Qed.

(** [a < b] on two finite doubles is the order of their values. *)
Lemma ltb_value (a b : float) (x y : Q) :
  (a <? b)%float = true -> F2Q a = Some x -> F2Q b = Some y -> (x < y)%Q.
Proof.
  rewrite FloatAxioms.ltb_spec. unfold F2Q.
  pose proof (Prim2SF_valid a) as Va. pose proof (Prim2SF_valid b) as Vb.
  destruct (Prim2SF a) as [s1 | s1 | | s1 m1 e1],
           (Prim2SF b) as [s2 | s2 | | s2 m2 e2];
    try discriminate; unfold SFltb, SFcompare.
  - intros L F1 F2. injection F1 as <-. injection F2 as <-.
    pose proof (finite_value_sign s2 m2 e2) as S. cbv zeta in S.
    destruct s2; [discriminate L | exact S].
  - intros L F1 F2. injection F1 as <-. injection F2 as <-.
    pose proof (finite_value_sign s1 m1 e1) as S. cbv zeta in S.
    destruct s1; [exact S | discriminate L].
  - intros L F1 F2. injection F1 as <-. injection F2 as <-.
    cbn in Va, Vb. unfold bounded in Va, Vb.
    apply andb_true_iff in Va, Vb. destruct Va as [C1 _], Vb as [C2 _].
    pose proof (finite_value_sign s1 m1 e1) as S1.
    pose proof (finite_value_sign s2 m2 e2) as S2. cbv zeta in S1, S2.
    destruct s1, s2.
    + assert (M : (e2 < e1)%Z \/ (e2 = e1 /\ (m2 < m1)%positive)).
      { apply SFcompare_magnitude_opp.
        destruct (e1 ?= e2)%Z; try discriminate L; try reflexivity.
        destruct (Pos.compare_cont Eq m1 m2); try discriminate L.
        reflexivity. }
      pose proof (magnitude_lt m2 m1 e2 e1 C2 C1 M) as Q.
      setoid_replace (- inject_Z (Z.pos m1) * 2 ^ e1)%Q
        with (- (inject_Z (Z.pos m1) * 2 ^ e1))%Q by ring.
      setoid_replace (- inject_Z (Z.pos m2) * 2 ^ e2)%Q
        with (- (inject_Z (Z.pos m2) * 2 ^ e2))%Q by ring.
      now apply Qopp_lt_compat.
    + eapply Qlt_trans; eassumption.
    + discriminate L.
    + assert (M : (e1 < e2)%Z \/ (e1 = e2 /\ (m1 < m2)%positive)).
      { apply SFcompare_magnitude.
        destruct (e1 ?= e2)%Z; try discriminate L; try reflexivity.
        destruct (Pos.compare_cont Eq m1 m2); try discriminate L.
        reflexivity. }
      exact (magnitude_lt m1 m2 e1 e2 C1 C2 M).
Qed.

(** ** The end of a string *)

Lemma ends_refl (t : string) : exists front, t = front ++ t.
Proof. now exists "". Qed.

Lemma ends_app (a s t : string) :
  (exists front, s = front ++ t) -> exists front, a ++ s = front ++ t.
Proof.
  intros [front ->]. exists (a ++ front). now rewrite string_app_assoc.
Qed.

(** The last field is what follows the last separator. *)
Lemma split_at_last (sep : ascii) (a f : string) :
  every (other_than sep) f = true ->
  exists first fields,
    split_at sep (a ++ String sep f) = (first :: fields ++ [f])%list.
Proof.
  intros F. induction a as [| c a IH]; cbn [append split_at].
  - rewrite Ascii.eqb_refl, split_at_one by exact F. now exists "", []%list.
  - destruct IH as (first & fields & ->).
    destruct (Ascii.eqb c sep).
    + now exists "", (first :: fields)%list.
    + now exists (String c first), fields.
Qed.

Lemma last_split_at (sep : ascii) (a f : string) :
  every (other_than sep) f = true ->
  last (split_at sep (a ++ String sep f)) "" = f.
Proof.
  intros F. destruct (split_at_last sep a f F) as (first & fields & ->).
  change (first :: fields ++ [f])%list with ((first :: fields) ++ [f])%list.
  apply last_last.
Qed.

(** * Properties of the class *)

Section Properties.

Context {SRS Image HeightField Progress : Type}.
Variable host : Host SRS Image Progress.

#[local] Set Default Proof Using "Type".

Lemma createImage_run (key : TileKey) (progress : Progress)
    (this : ArcGISSource SRS) :
  runState (createImage host key progress) this =
  (HTTPClient_readImageFile host (createImage_url this key) (getOptions this)
     progress, this).
Proof. reflexivity. Qed.

Lemma serve_keeps_object (r : Request Progress) (this : ArcGISSource SRS) :
  execState (serve HeightField host r) this = this.
Proof. destruct r; reflexivity. Qed.

Lemma serve_all_keeps_object (rs : list (Request Progress))
    (this : ArcGISSource SRS) :
  execState (serve_all HeightField host rs) this = this.
Proof.
  induction rs as [| r rs IH].
  - reflexivity.
  - pose proof (serve_keeps_object r this) as one.
    unfold execState in *. cbn.
    destruct (runState (serve HeightField host r) this) as [a s1].
    cbn in one. subst s1.
    destruct (runState (serve_all HeightField host rs) this) as [l s2].
    exact IH.
Qed.

(** In a sequence of requests, every height field returned is null. *)
Lemma serve_all_height_fields (rs : list (Request Progress))
    (this : ArcGISSource SRS) :
  Forall (fun response =>
            forall hf, response = HeightFieldResult hf -> hf = None)
    (evalState (serve_all HeightField host rs) this).
Proof.
  induction rs as [| r rs IH].
  - constructor.
  - pose proof (serve_keeps_object r this) as K.
    unfold evalState, execState in *. cbn.
    destruct (runState (serve HeightField host r) this) as [a s1] eqn:R.
    cbn in K. subst s1.
    destruct (runState (serve_all HeightField host rs) this) as [l s2].
    cbn in *.
    constructor; [| exact IH].
    destruct r; cbn in R; injection R as <-; intros hf H;
      try discriminate H.
    now injection H as <-.
Qed.

(** C8: for every object, tile key and progress handle, [createHeightField]
    returns the null result ("not available") and leaves the object as it
    was: so it does on the object the constructor builds from any options,
    whatever [MapService::init] returned, before and after [initialize], and
    every height field returned in a sequence of requests is null. *)
Theorem createHeightField_not_available (this : ArcGISSource SRS)
    (key : TileKey) (progress : Progress) :
  runState (createHeightField HeightField key progress) this = (None, this) /\
  (forall (options : option Options) (uri : string)
          (ovr : option (Profile SRS)),
     let built := fst (ArcGISSource_new host options) in
     evalState (createHeightField HeightField key progress) built = None /\
     evalState (createHeightField HeightField key progress)
       (execState (initialize host uri ovr) built) = None) /\
  (forall rs : list (Request Progress),
     Forall (fun response =>
               forall hf, response = HeightFieldResult hf -> hf = None)
       (evalState (serve_all HeightField host rs) this)).
Proof.
  split; [reflexivity |]. split; [intros; split; reflexivity |].
  intros rs. apply serve_all_height_fields.
Qed.

(** C9: no per-request member function ([createImage], [createHeightField],
    [getPixelsPerTile], [getExtension]) writes a member: after any single call,
    and after any sequence of calls, the object (base-class state, url,
    profile string, layer, format, map-service descriptor) is the one before;
    this holds in particular for the object that the constructor and
    [initialize] leave. *)
Theorem requests_keep_object :
  (forall (r : Request Progress) (this : ArcGISSource SRS),
     execState (serve HeightField host r) this = this) /\
  (forall (rs : list (Request Progress)) (this : ArcGISSource SRS),
     execState (serve_all HeightField host rs) this = this) /\
  (forall (options : option Options) (uri : string) (ovr : option (Profile SRS))
          (rs : list (Request Progress)),
     let this := execState (initialize host uri ovr)
                   (fst (ArcGISSource_new host options)) in
     execState (serve_all HeightField host rs) this = this).
Proof.
  split; [| split]; intros.
  - apply serve_keeps_object.
  - apply serve_all_keeps_object.
  - apply serve_all_keeps_object.
Qed.

(** The format of the URL is the reported format in lower case, and exactly
    "png" when that begins with "png". *)
Lemma url_format_spec (this : ArcGISSource SRS) :
  let f := transform tolower (getFormat (getTileInfo (_map_service this))) in
  url_format this = if prefix "png" f then "png" else f.
Proof.
  cbv zeta. unfold url_format. rewrite substr_png_prefix.
  set (f := transform tolower _).
  destruct (prefix "png" f) eqn:P.
  - destruct (3 <? String.length f)%nat eqn:L; cbn.
    + reflexivity.
    + now apply prefix_png_length_3.
  - now rewrite andb_false_r.
Qed.

(** C4: for a tiled service and every tile key, [createImage] fetches
    [{base}/tile/{level}/{row}/{column}.{format}], the row ([tile_y]) before
    the column ([tile_x]), where the format is the reported one in lower case,
    replaced by exactly "png" when it begins with "png"; the level is written
    as the [int] the code converts it to, which is the level itself below
    2^31; level 3, row 5, column 2 and format "PNG24" give
    [{base}/tile/3/5/2.png]. *)
Theorem createImage_url_tiled (this : ArcGISSource SRS) (key : TileKey)
    (progress : Progress) :
  isTiled (_map_service this) = true ->
  let f := transform tolower (getFormat (getTileInfo (_map_service this))) in
  let level := getLevelOfDetail key in
  let column := fst (getTileXY key) in
  let row := snd (getTileXY key) in
  let url :=
    _url this ++ "/tile/" ++ show_int (int_of_unsigned level)
      ++ "/" ++ show_unsigned row ++ "/" ++ show_unsigned column
      ++ "." ++ (if prefix "png" f then "png" else f) in
  createImage_url this key = url /\
  evalState (createImage host key progress) this =
    HTTPClient_readImageFile host url (getOptions this) progress /\
  ((level < 2 ^ 31)%N ->
   show_int (int_of_unsigned level) = show_unsigned level) /\
  (getFormat (getTileInfo (_map_service this)) = "PNG24" ->
   level = 3%N -> row = 5%N -> column = 2%N ->
   createImage_url this key = _url this ++ "/tile/3/5/2.png").
Proof.
  intros T. cbv zeta.
  assert (U : createImage_url this key =
    _url this ++ "/tile/" ++ show_int (int_of_unsigned (getLevelOfDetail key))
      ++ "/" ++ show_unsigned (snd (getTileXY key))
      ++ "/" ++ show_unsigned (fst (getTileXY key))
      ++ "." ++ url_format this).
  { unfold createImage_url. rewrite T.
    destruct (getTileXY key) as [tile_x tile_y]. reflexivity. }
  rewrite url_format_spec in U. cbv zeta in U.
  split; [exact U |]. split.
  - unfold evalState. rewrite createImage_run. cbn [fst]. now rewrite U.
  - split.
    + intros L. now rewrite int_of_unsigned_small, show_int_of_N.
    + intros F L R C. rewrite U, F, L, R, C. reflexivity.
Qed.

(** C1, as the code has it: for a service that is not tiled and every tile
    key, [createImage] fetches
    [{base}/export?bbox={xmin},{ymin},{xmax},{ymax}&format={format}]
    [&size=256,256&transparent=true&f=image&.{format}] (one string):
    after [f=image] the code appends [&.] and the format once more, so that
    the URL ends in a file extension.  The coordinates are those of the extent
    of the key, written with precision 16. *)
Theorem createImage_url_export (this : ArcGISSource SRS) (key : TileKey)
    (progress : Progress) :
  isTiled (_map_service this) = false ->
  let f := transform tolower (getFormat (getTileInfo (_map_service this))) in
  let format := if prefix "png" f then "png" else f in
  let ex := getGeoExtent key in
  let url :=
    _url this ++ "/export?bbox="
      ++ show_double 16 (xMin ex) ++ "," ++ show_double 16 (yMin ex) ++ ","
      ++ show_double 16 (xMax ex) ++ "," ++ show_double 16 (yMax ex)
      ++ "&format=" ++ format
      ++ "&size=256,256&transparent=true&f=image" ++ "&." ++ format in
  createImage_url this key = url /\
  evalState (createImage host key progress) this =
    HTTPClient_readImageFile host url (getOptions this) progress.
Proof.
  intros T. cbv zeta.
  assert (U : createImage_url this key =
    _url this ++ "/export?bbox="
      ++ show_double 16 (xMin (getGeoExtent key)) ++ ","
      ++ show_double 16 (yMin (getGeoExtent key)) ++ ","
      ++ show_double 16 (xMax (getGeoExtent key)) ++ ","
      ++ show_double 16 (yMax (getGeoExtent key))
      ++ "&format=" ++ url_format this
      ++ "&size=256,256&transparent=true&f=image" ++ "&." ++ url_format this).
  { unfold createImage_url. rewrite T.
    destruct (getTileXY key) as [tile_x tile_y]. reflexivity. }
  rewrite url_format_spec in U. cbv zeta in U.
  split; [exact U |].
  unfold evalState. rewrite createImage_run. cbn [fst]. now rewrite U.
Qed.

Lemma ArcGISSource_new_members (options : option Options) :
  let this := fst (ArcGISSource_new host options) in
  let url := plugin_string options PROPERTY_URL in
  getOptions this = options /\
  TileSource_profile this = None /\
  _url this = url /\
  _profile_str this = plugin_string options PROPERTY_PROFILE /\
  _layer this = "_alllayers" /\
  _format this = "png" /\
  _map_service this = snd (MapService_init host url).
Proof.
  cbv zeta. unfold ArcGISSource_new.
  destruct (MapService_init host (plugin_string options PROPERTY_URL))
    as [ok ms].
  cbn. repeat split.
Qed.

Lemma initialize_run (uri : string) (ovr : option (Profile SRS))
    (this : ArcGISSource SRS) :
  runState (initialize host uri ovr) this =
  (tt,
   mkArcGISSource (getOptions this)
     (if negb (empty (_profile_str this)) then
        Profile_create_named host (_profile_str this)
      else
        match getProfile (_map_service this) with
        | Some p =>
            if negb (isTiled (_map_service this)) then
              Some (expand_to_square p)
            else Some p
        | None => getGlobalGeodeticProfile host
        end)
     (_url this) (_profile_str this) (_map this) (_layer this)
     (_format this) (_map_service this)).
Proof. reflexivity. Qed.

(** C6: [initialize] chooses the profile by strict priority: the profile
    named by the configured string when there is one (a string that is not
    empty), whatever the service reported; otherwise the profile the service
    reported, expanded to a square when the service is not tiled; otherwise
    the global geodetic profile of the registry.  The profile string of an
    object is the "profile" plugin datum of its options, and the two arguments
    of [initialize] play no part. *)
Theorem initialize_profile_priority (this : ArcGISSource SRS) (uri : string)
    (ovr : option (Profile SRS)) :
  let result := TileSource_profile (execState (initialize host uri ovr) this) in
  let reported := getProfile (_map_service this) in
  (_profile_str this <> "" ->
   result = Profile_create_named host (_profile_str this)) /\
  (_profile_str this = "" ->
   forall p, reported = Some p ->
   result = Some (if isTiled (_map_service this) then p
                  else expand_to_square p)) /\
  (_profile_str this = "" -> reported = None ->
   result = getGlobalGeodeticProfile host) /\
  (forall uri' ovr',
   TileSource_profile (execState (initialize host uri' ovr') this) = result) /\
  (forall options,
   _profile_str (fst (ArcGISSource_new host options)) =
   plugin_string options PROPERTY_PROFILE).
Proof.
  cbv zeta. unfold execState. rewrite initialize_run.
  cbn [snd TileSource_profile].
  repeat split.
  - intros NE. destruct (empty (_profile_str this)) eqn:E; [| reflexivity].
    apply empty_spec in E. contradiction.
  - intros E p R. rewrite E, R. cbn.
    now destruct (isTiled (_map_service this)).
  - intros E R. now rewrite E, R.
  - intros options. apply ArcGISSource_new_members.
Qed.

(** C2, as the code has it: when [MapService::init] fails in the constructor,
    the constructor writes one warning and builds the object all the same,
    with the descriptor that the failed [init] left; [createImage] does not
    look at that outcome: it synthesizes the URL from this descriptor, fetches
    it, and returns what the HTTP client returns, so the result is "not
    available" exactly when that fetch yields nothing.  The object is left
    unchanged. *)
Theorem createImage_after_failed_init (options : option Options)
    (key : TileKey) (progress : Progress) :
  let url := plugin_string options PROPERTY_URL in
  fst (MapService_init host url) = false ->
  let this := fst (ArcGISSource_new host options) in
  let fetched :=
    HTTPClient_readImageFile host (createImage_url this key) options progress in
  snd (ArcGISSource_new host options) =
    ["[osgearth] [ArcGIS] map service initialization failed: "
       ++ getError (snd (MapService_init host url))] /\
  _map_service this = snd (MapService_init host url) /\
  runState (createImage host key progress) this = (fetched, this) /\
  (evalState (createImage host key progress) this = None <-> fetched = None).
Proof.
  cbv zeta. intros F.
  destruct (ArcGISSource_new_members options) as (O & _ & _ & _ & _ & _ & M).
  cbv zeta in O, M.
  split.
  - unfold ArcGISSource_new.
    destruct (MapService_init host (plugin_string options PROPERTY_URL))
      as [ok ms].
    cbn in F. subst ok. reflexivity.
  - split; [exact M |].
    unfold evalState. rewrite createImage_run, O. cbn [fst].
    split; [reflexivity | tauto].
Qed.

Lemma getNumTiles_0_create (srs : SRS) (a b c d : float)
    (p : Profile SRS) :
  getNumTiles
    (Profile_create srs a b c d (fst (getNumTiles p 0)) (snd (getNumTiles p 0)))
    0 = getNumTiles p 0.
Proof.
  unfold getNumTiles. cbn [numTilesWideAtLod0 numTilesHighAtLod0 fst snd].
  rewrite !N.pow_0_r, !N.mul_1_r, !N.Div0.mod_mod. reflexivity.
Qed.

Lemma expand_to_square_gt (p : Profile SRS) :
  let ex := getExtent p in
  gt (width ex) (height ex) = true ->
  let d := (width ex - height ex)%float in
  expand_to_square p =
  Profile_create (getSRS p) (xMin ex) (yMin ex - d / 2)%float
    (xMax ex) (yMax ex + d / 2)%float
    (fst (getNumTiles p 0)) (snd (getNumTiles p 0)).
Proof. cbv zeta. intros G. unfold expand_to_square. now rewrite G. Qed.

Lemma expand_to_square_lt (p : Profile SRS) :
  let ex := getExtent p in
  lt (width ex) (height ex) = true ->
  let d := (height ex - width ex)%float in
  expand_to_square p =
  Profile_create (getSRS p) (xMin ex - d / 2)%float (yMin ex)
    (xMax ex + d / 2)%float (yMax ex)
    (fst (getNumTiles p 0)) (snd (getNumTiles p 0)).
Proof.
  cbv zeta. intros L. unfold expand_to_square.
  destruct (gt (width (getExtent p)) (height (getExtent p))) eqn:G.
  - apply gt_not_lt in G. congruence.
  - now rewrite L.
Qed.

Lemma expand_to_square_square (p : Profile SRS) :
  let ex := getExtent p in
  gt (width ex) (height ex) = false -> lt (width ex) (height ex) = false ->
  expand_to_square p = p.
Proof. cbv zeta. intros G L. unfold expand_to_square. now rewrite G, L. Qed.

(** With exact arithmetic, the extent that the expansion builds is a square
    around the centre of the extent it started from. *)
Lemma expand_to_square_exact (p : Profile SRS) :
  let ex := getExtent p in
  let ex' := getExtent (expand_to_square p) in
  gt (width ex) (height ex) = true \/ lt (width ex) (height ex) = true ->
  expansion_exact ex = true ->
  Qeq_some (F2Q (width ex')) (F2Q (height ex')) /\
  Qeq_some (center_x ex') (center_x ex) /\
  Qeq_some (center_y ex') (center_y ex).
Proof.
  cbv zeta. intros NS. unfold expansion_exact. rewrite !andb_true_iff.
  intros [[EW EH] E].
  apply exact_op_true in EW. destruct EW as (X1 & X0 & W & FX1 & FX0 & FW & CW).
  apply exact_op_true in EH. destruct EH as (Y1 & Y0 & H & FY1 & FY0 & FH & CH).
  fold (width (getExtent p)) in FW. fold (height (getExtent p)) in FH.
  destruct NS as [G | L].
  - rewrite G in E. apply andb_true_iff in E. destruct E as [ED EX].
    apply exact_op_true in ED.
    destruct ED as (W' & H' & D & FW' & FH' & FD & CD). same_value.
    destruct (expanded_exact_values _ _ _ _ _ _ EX FY0 FY1 FD)
      as (L' & U' & N' & FL' & FU' & FN' & CL & CU & CN).
    rewrite (expand_to_square_gt p G).
    unfold center_x, center_y, width, height in *.
    cbn [getExtent xMin xMax yMin yMax p_xmin p_xmax p_ymin p_ymax] in *.
    rewrite FW, FN', FL', FU', FX0, FX1, FY0, FY1.
    cbn. split; [| split].
    + rewrite CN, CD, CH. ring.
    + reflexivity.
    + rewrite CL, CU. field.
  - assert (G : gt (width (getExtent p)) (height (getExtent p)) = false).
    { destruct (gt (width (getExtent p)) (height (getExtent p))) eqn:G;
        [apply gt_not_lt in G; congruence | reflexivity]. }
    rewrite G, L in E. apply andb_true_iff in E. destruct E as [ED EX].
    apply exact_op_true in ED.
    destruct ED as (H' & W' & D & FH' & FW' & FD & CD). same_value.
    destruct (expanded_exact_values _ _ _ _ _ _ EX FX0 FX1 FD)
      as (L' & U' & N' & FL' & FU' & FN' & CL & CU & CN).
    rewrite (expand_to_square_lt p L).
    unfold center_x, center_y, width, height in *.
    cbn [getExtent xMin xMax yMin yMax p_xmin p_xmax p_ymin p_ymax] in *.
    rewrite FH, FN', FL', FU', FX0, FX1, FY0, FY1.
    cbn. split; [| split].
    + rewrite CN, CD, CW. ring.
    + rewrite CL, CU. field.
    + reflexivity.
Qed.

(** C3, as the code has it: for a service that is not tiled, with no
    configured profile string and a reported profile whose extent is not
    square, [initialize] stores the expanded profile: same reference system,
    same level-0 tile counts, the longer axis untouched and both bounds of the
    shorter axis moved outwards by the same [double] [d / 2], [d] the
    difference of width and height (the y axis when width > height, the x
    axis when height > width).  When none of these [double] operations is
    rounded, the stored extent has equal width and height (they compare equal
    with [==]) and the centre of the reported extent; the arithmetic being
    binary64, a rounded operation can leave width and height one unit in the
    last place apart. *)
Theorem initialize_expands_to_square (this : ArcGISSource SRS) (uri : string)
    (ovr : option (Profile SRS)) (p : Profile SRS) :
  _profile_str this = "" ->
  getProfile (_map_service this) = Some p ->
  isTiled (_map_service this) = false ->
  let ex := getExtent p in
  let w := width ex in
  let h := height ex in
  gt w h = true \/ lt w h = true ->
  let p' := expand_to_square p in
  let ex' := getExtent p' in
  TileSource_profile (execState (initialize host uri ovr) this) = Some p' /\
  getSRS p' = getSRS p /\
  getNumTiles p' 0 = getNumTiles p 0 /\
  (gt w h = true ->
   let d := (w - h)%float in
   xMin ex' = xMin ex /\ xMax ex' = xMax ex /\
   yMin ex' = (yMin ex - d / 2)%float /\ yMax ex' = (yMax ex + d / 2)%float) /\
  (lt w h = true ->
   let d := (h - w)%float in
   yMin ex' = yMin ex /\ yMax ex' = yMax ex /\
   xMin ex' = (xMin ex - d / 2)%float /\ xMax ex' = (xMax ex + d / 2)%float) /\
  (expansion_exact ex = true ->
   (width ex' =? height ex')%float = true /\
   Qeq_some (F2Q (width ex')) (F2Q (height ex')) /\
   Qeq_some (center_x ex') (center_x ex) /\
   Qeq_some (center_y ex') (center_y ex)).
Proof.
  cbv zeta. intros PS RP NT NS.
  split.
  { unfold execState. rewrite initialize_run. cbn [snd TileSource_profile].
    now rewrite PS, RP, NT. }
  split; [| split].
  - destruct NS as [G | L].
    + now rewrite (expand_to_square_gt p G).
    + now rewrite (expand_to_square_lt p L).
  - destruct NS as [G | L].
    + rewrite (expand_to_square_gt p G). apply getNumTiles_0_create.
    + rewrite (expand_to_square_lt p L). apply getNumTiles_0_create.
  - split; [| split].
    + intros G. rewrite (expand_to_square_gt p G). repeat split.
    + intros L. rewrite (expand_to_square_lt p L). repeat split.
    + intros EX.
      destruct (expand_to_square_exact p NS EX) as (SQ & CX & CY).
      repeat split; try assumption. now apply same_value_eqb.
Qed.

(** C5, as the code has it: on an extent whose width and height compare
    equal the expansion changes nothing; so a second expansion changes nothing
    whenever the first one left width and height equal, which it does when its
    arithmetic is exact.  In binary64 the first expansion can leave them one
    unit in the last place apart, and then the second one moves the bounds
    again. *)
Theorem expand_to_square_twice (p : Profile SRS) :
  let ex := getExtent p in
  let p' := expand_to_square p in
  let ex' := getExtent p' in
  ((width ex =? height ex)%float = true -> expand_to_square p = p) /\
  ((width ex' =? height ex')%float = true -> expand_to_square p' = p') /\
  (expansion_exact ex = true -> expand_to_square p' = p').
Proof.
  cbv zeta.
  assert (N : forall q : Profile SRS,
             (width (getExtent q) =? height (getExtent q))%float = true ->
             expand_to_square q = q).
  { intros q E. apply eqb_not_lt in E. destruct E as [L G].
    now apply expand_to_square_square. }
  split; [apply N |]. split; [apply N |].
  intros EX.
  destruct (gt (width (getExtent p)) (height (getExtent p))) eqn:G;
    [| destruct (lt (width (getExtent p)) (height (getExtent p))) eqn:L].
  - apply N, same_value_eqb. now apply expand_to_square_exact; [left |].
  - apply N, same_value_eqb. now apply expand_to_square_exact; [right |].
  - now rewrite !(expand_to_square_square p G L).
Qed.

(** C7: for a service that is not tiled and every tile key, the four
    coordinates after [bbox=] are the bounds of the extent of the key, each
    written with precision 16: what is written for a finite bound is a decimal
    numeral that denotes zero for a zero and otherwise
    [D * 10^(X - 15)] for 16 significant digits [D] (trailing zeros are not
    written), the value of the double rounded to nearest, so within half a
    unit of the 16th digit; the extent (-10, -5, 10, 5) gives
    [bbox=-10,-5,10,5]. *)
Theorem bbox_sixteen_significant_digits (this : ArcGISSource SRS)
    (key : TileKey) :
  isTiled (_map_service this) = false ->
  let ex := getGeoExtent key in
  (exists rest,
     createImage_url this key =
     _url this ++ "/export?bbox="
       ++ show_double 16 (xMin ex) ++ "," ++ show_double 16 (yMin ex) ++ ","
       ++ show_double 16 (xMax ex) ++ "," ++ show_double 16 (yMax ex)
       ++ rest) /\
  (forall (x : float) (v : Q),
     In x [xMin ex; yMin ex; xMax ex; yMax ex] -> F2Q x = Some v ->
     exists q,
       read_decimal (show_double 16 x) = Some q /\
       (((v == 0)%Q /\ (q == 0)%Q) \/
        exists s D X,
          significant_digits 16 x = Some (s, D, X) /\
          (q == digits_value 16 s D X)%Q /\
          (10 ^ 15 <= D < 10 ^ 16)%Z /\
          (Qabs (v - q) <= (1 # 2) * 10 ^ (X - 15))%Q)) /\
  (xMin ex = (-10)%float -> yMin ex = (-5)%float ->
   xMax ex = 10%float -> yMax ex = 5%float ->
   exists rest,
     createImage_url this key =
     _url this ++ "/export?bbox=-10,-5,10,5" ++ rest).
Proof.
  intros T. cbv zeta.
  assert (U : createImage_url this key =
    _url this ++ "/export?bbox="
      ++ show_double 16 (xMin (getGeoExtent key)) ++ ","
      ++ show_double 16 (yMin (getGeoExtent key)) ++ ","
      ++ show_double 16 (xMax (getGeoExtent key)) ++ ","
      ++ show_double 16 (yMax (getGeoExtent key))
      ++ "&format=" ++ url_format this
      ++ "&size=256,256&transparent=true&f=image&." ++ url_format this).
  { unfold createImage_url. rewrite T.
    destruct (getTileXY key) as [tile_x tile_y]. reflexivity. }
  split; [| split].
  - eexists. exact U.
  - intros x v _ F.
    destruct (show_double_read 16 x v ltac:(lia) F) as (q & R & C).
    exists q. split; [exact R |].
    destruct C as [C | (s & D & X & SD & Q & B & A)]; [now left | right].
    exists s, D, X. replace (X - 15)%Z with (X - 16 + 1)%Z by lia.
    now repeat split.
  - intros X0 Y0 X1 Y1. rewrite U, X0, Y0, X1, Y1.
    replace (show_double 16 (-10)) with "-10" by (vm_compute; reflexivity).
    replace (show_double 16 (-5)) with "-5" by (vm_compute; reflexivity).
    replace (show_double 16 10) with "10" by (vm_compute; reflexivity).
    replace (show_double 16 5) with "5" by (vm_compute; reflexivity).
    eexists. reflexivity.
Qed.

(** C10: [getExtension] returns "png" for every object the constructor
    builds, before and after [initialize] and after any requests, whatever
    format the service reported: [_format] is set to "png" by the constructor
    and written nowhere else.  The format of the synthesized URLs comes from
    the service descriptor instead, so the two disagree as soon as the
    service reports a format that does not begin with "png", for instance
    "JPEG". *)
Theorem getExtension_always_png (options : option Options) (uri : string)
    (ovr : option (Profile SRS)) (rs : list (Request Progress)) :
  let this := fst (ArcGISSource_new host options) in
  let this' := execState (initialize host uri ovr) this in
  let reported := getFormat (getTileInfo (_map_service this)) in
  evalState getExtension this = "png" /\
  evalState getExtension this' = "png" /\
  evalState getExtension (execState (serve_all HeightField host rs) this')
    = "png" /\
  (prefix "png" (transform tolower reported) = false ->
   url_format this' = transform tolower reported /\
   url_format this' <> evalState getExtension this') /\
  (reported = "JPEG" -> url_format this' = "jpeg").
Proof.
  cbv zeta.
  destruct (ArcGISSource_new_members options) as (_ & _ & _ & _ & _ & F & _).
  cbv zeta in F.
  set (this := fst (ArcGISSource_new host options)) in *.
  assert (F' : _format (execState (initialize host uri ovr) this) = "png").
  { unfold execState. rewrite initialize_run. exact F. }
  assert (M : _map_service (execState (initialize host uri ovr) this) =
              _map_service this).
  { unfold execState. now rewrite initialize_run. }
  split; [exact F |]. split; [exact F' |].
  split; [now rewrite serve_all_keeps_object |].
  split.
  - intros NP.
    pose proof (url_format_spec (execState (initialize host uri ovr) this))
      as S. cbv zeta in S. rewrite M, NP in S.
    split; [exact S |].
    change (evalState getExtension (execState (initialize host uri ovr) this))
      with (_format (execState (initialize host uri ovr) this)).
    rewrite S, F'. intros E. rewrite E in NP. discriminate.
  - intros J.
    pose proof (url_format_spec (execState (initialize host uri ovr) this))
      as S. cbv zeta in S. rewrite M, J in S. exact S.
Qed.

(** ** More about the URLs *)

(** X4: on a tiled service the URL identifies the tile: for one object and
    two keys whose levels fit an [unsigned int], the URLs that [createImage]
    builds are equal exactly when the keys have the same level, row and
    column (whatever their extents). *)
Theorem createImage_url_tiled_inj (this : ArcGISSource SRS)
    (k1 k2 : TileKey) :
  isTiled (_map_service this) = true ->
  (getLevelOfDetail k1 < 2 ^ 32)%N -> (getLevelOfDetail k2 < 2 ^ 32)%N ->
  createImage_url this k1 = createImage_url this k2 <->
  getLevelOfDetail k1 = getLevelOfDetail k2 /\ getTileXY k1 = getTileXY k2.
Proof.
  intros T B1 B2. unfold createImage_url. rewrite T.
  split; [| intros [-> ->]; reflexivity].
  destruct (getTileXY k1) as [x1 y1], (getTileXY k2) as [x2 y2].
  intros E. apply string_app_inv_head in E.
  cbn [append] in E. injection E as E.
  apply field_inj in E;
    [| apply other_than_numeral; [reflexivity | apply every_show_int] ..].
  destruct E as [L E].
  apply field_inj in E;
    [| apply other_than_show_unsigned; reflexivity ..].
  destruct E as [Y E].
  apply field_inj in E;
    [| apply other_than_show_unsigned; reflexivity ..].
  destruct E as [X _].
  apply show_int_inj, int_of_unsigned_inj in L; [| assumption ..].
  apply show_unsigned_inj in Y. apply show_unsigned_inj in X.
  split; congruence.
Qed.

(** X5: in both modes the URL that [createImage] builds ends in a point and
    the format of the URL (in the export URL through the [&.] that follows
    [f=image]); when that format holds no point, it is what follows the last
    point of the URL, its file extension. *)
Theorem createImage_url_extension (this : ArcGISSource SRS) (key : TileKey) :
  let url := createImage_url this key in
  let f := url_format this in
  (exists front, url = front ++ "." ++ f) /\
  (every (other_than ".") f = true -> last (split_at "." url) "" = f).
Proof.
  cbv zeta.
  assert (E : exists front,
             createImage_url this key = front ++ "." ++ url_format this).
  { unfold createImage_url. destruct (getTileXY key) as [tile_x tile_y].
    destruct (isTiled (_map_service this));
      repeat first [apply ends_refl | apply ends_app]. }
  split; [exact E |].
  intros F. destruct E as [front ->]. now apply last_split_at.
Qed.

(** X6: in the URL for a service that is not tiled, what stands between
    [bbox=] and [&format=] splits at its commas into exactly four fields, the
    numerals of xmin, ymin, xmax and ymax in this order: each numeral is not
    empty and made of digits, signs, a point, [e] and the letters of [inf]
    and [nan] only, so it holds no comma and no [&]. *)
Theorem bbox_fields (this : ArcGISSource SRS) (key : TileKey) :
  isTiled (_map_service this) = false ->
  let ex := getGeoExtent key in
  let numerals := map (show_double 16) [xMin ex; yMin ex; xMax ex; yMax ex] in
  exists bbox rest,
    createImage_url this key =
      _url this ++ "/export?bbox=" ++ bbox ++ "&format=" ++ rest /\
    split_at "," bbox = numerals /\
    every (other_than "&") bbox = true /\
    Forall (fun n => n <> "" /\ every numeral_char n = true) numerals.
Proof.
  intros T. cbv zeta. unfold createImage_url. rewrite T.
  destruct (getTileXY key) as [tile_x tile_y].
  set (ex := getGeoExtent key).
  exists (show_double 16 (xMin ex) ++ "," ++ show_double 16 (yMin ex)
            ++ "," ++ show_double 16 (xMax ex) ++ ","
            ++ show_double 16 (yMax ex)).
  eexists. split; [| split; [| split]].
  - rewrite !string_app_assoc. reflexivity.
  - cbn [append map].
    rewrite !split_at_field, split_at_one;
      try (apply other_than_numeral;
           [reflexivity | apply every_show_double]).
    reflexivity.
  - rewrite !every_app.
    rewrite !(other_than_numeral "&" (show_double _ _))
      by (try reflexivity; apply every_show_double).
    reflexivity.
  - cbn [map]. repeat constructor;
      try (apply show_double_not_empty; lia); apply every_show_double.
Qed.

(** X7: on a service that is not tiled, for one object and two keys, the
    URLs that [createImage] builds are equal exactly when the four bounds of
    the two extents are written alike with precision 16, whatever the levels,
    rows and columns of the keys. *)
Theorem createImage_url_export_inj (this : ArcGISSource SRS)
    (k1 k2 : TileKey) :
  isTiled (_map_service this) = false ->
  let ex1 := getGeoExtent k1 in
  let ex2 := getGeoExtent k2 in
  createImage_url this k1 = createImage_url this k2 <->
  show_double 16 (xMin ex1) = show_double 16 (xMin ex2) /\
  show_double 16 (yMin ex1) = show_double 16 (yMin ex2) /\
  show_double 16 (xMax ex1) = show_double 16 (xMax ex2) /\
  show_double 16 (yMax ex1) = show_double 16 (yMax ex2).
Proof.
  intros T. cbv zeta. unfold createImage_url. rewrite T.
  destruct (getTileXY k1) as [x1 y1], (getTileXY k2) as [x2 y2].
  split; [| intros (-> & -> & -> & ->); reflexivity].
  intros E. apply string_app_inv_head in E.
  cbn [append] in E. injection E as E.
  apply field_inj in E;
    [| apply other_than_numeral; [reflexivity | apply every_show_double] ..].
  destruct E as [A E].
  apply field_inj in E;
    [| apply other_than_numeral; [reflexivity | apply every_show_double] ..].
  destruct E as [B E].
  apply field_inj in E;
    [| apply other_than_numeral; [reflexivity | apply every_show_double] ..].
  destruct E as [C E].
  apply field_inj in E;
    [| apply other_than_numeral; [reflexivity | apply every_show_double] ..].
  destruct E as [D _].
  auto.
Qed.

(** X8: the format that [createImage] puts in the URL is in normal form: it
    has no upper-case letter ([tolower] leaves it as it is), it is "png" as
    soon as it begins with "png", it is not longer than the reported format
    and empty only when that is empty; and a service that reports a format in
    normal form gets it back unchanged. *)
Theorem url_format_normal_form (this this' : ArcGISSource SRS) :
  let reported := getFormat (getTileInfo (_map_service this)) in
  let f := url_format this in
  transform tolower f = f /\
  every (fun c => negb (is_upper c)) f = true /\
  (prefix "png" f = true -> f = "png") /\
  (String.length f <= String.length reported)%nat /\
  (f = "" <-> reported = "") /\
  (getFormat (getTileInfo (_map_service this')) = f -> url_format this' = f).
Proof.
  cbv zeta. rewrite (url_format_spec this). cbv zeta.
  set (r := getFormat (getTileInfo (_map_service this))).
  destruct (prefix "png" (transform tolower r)) eqn:P.
  - split; [reflexivity |]. split; [reflexivity |].
    split; [reflexivity |]. split.
    + apply prefix_length in P. rewrite length_transform in P. exact P.
    + split.
      * split; [discriminate |]. intros E. rewrite E in P. discriminate P.
      * intros F. rewrite (url_format_spec this'). cbv zeta. rewrite F.
        reflexivity.
  - split; [apply transform_tolower_twice |].
    split; [apply every_lower, transform_tolower_twice |].
    split; [congruence |]. split.
    + rewrite length_transform. lia.
    + split.
      * split.
        -- intros E. destruct r; [reflexivity | discriminate E].
        -- intros E. rewrite E. reflexivity.
      * intros F. rewrite (url_format_spec this'). cbv zeta. rewrite F.
        rewrite transform_tolower_twice, P. reflexivity.
Qed.

(** X9: without options, or without an "url" datum in them, the constructor
    still builds the object, with an empty base URL: [MapService::init] is
    called on the empty string, and the URL that [createImage] fetches begins
    with [/tile/] on a tiled service and with [/export?bbox=] otherwise. *)
Theorem createImage_url_without_base (options : option Options)
    (key : TileKey) (progress : Progress) :
  options = None \/
  (exists o, options = Some o /\ getPluginData o PROPERTY_URL = None) ->
  let this := fst (ArcGISSource_new host options) in
  let url := createImage_url this key in
  _url this = "" /\
  _map_service this = snd (MapService_init host "") /\
  (if isTiled (_map_service this) then prefix "/tile/" url
   else prefix "/export?bbox=" url) = true /\
  evalState (createImage host key progress) this =
    HTTPClient_readImageFile host url options progress.
Proof.
  intros H. cbv zeta.
  assert (U : plugin_string options PROPERTY_URL = "").
  { destruct H as [-> | (o & -> & E)]; [reflexivity |].
    cbn. now rewrite E. }
  destruct (ArcGISSource_new_members options)
    as (O & _ & B & _ & _ & _ & M).
  cbv zeta in O, B, M. rewrite U in B, M.
  split; [exact B |]. split; [exact M |]. split.
  - unfold createImage_url. rewrite B.
    destruct (getTileXY key) as [tile_x tile_y].
    destruct (isTiled _).
    + exact (prefix_app "/tile/" _).
    + exact (prefix_app "/export?bbox=" _).
  - unfold evalState. rewrite createImage_run. cbn [fst]. now rewrite O.
Qed.

(** ** More about [initialize] *)

(** X10: [initialize] writes the stored profile and no other member; what it
    stores does not depend on the profile stored before, since it is computed
    from the profile string and the service descriptor, which it leaves as
    they were; so a second call, with any arguments, leaves the object as the
    first one did. *)
Theorem initialize_writes_profile_only (this : ArcGISSource SRS)
    (uri uri' : string) (ovr ovr' : option (Profile SRS)) :
  let this' := execState (initialize host uri ovr) this in
  (getOptions this' = getOptions this /\ _url this' = _url this /\
   _profile_str this' = _profile_str this /\ _map this' = _map this /\
   _layer this' = _layer this /\ _format this' = _format this /\
   _map_service this' = _map_service this) /\
  (forall stored : option (Profile SRS),
     execState (setProfile stored ;; initialize host uri' ovr') this = this') /\
  execState (initialize host uri' ovr') this' = this'.
Proof.
  cbv zeta. unfold execState. rewrite !initialize_run. cbn [snd].
  split; [repeat split |]. split; [intros stored |]; reflexivity.
Qed.

(** X11: [initialize] stores a null profile in two cases only: a profile
    string is configured and [Profile::create] knows no profile of that name
    (the profile of the service and the global one are not tried then), or
    no string is configured, the service reported no profile and the registry
    has no global geodetic profile. *)
Theorem initialize_null_profile (this : ArcGISSource SRS) (uri : string)
    (ovr : option (Profile SRS)) :
  TileSource_profile (execState (initialize host uri ovr) this) = None <->
  (_profile_str this <> "" /\
   Profile_create_named host (_profile_str this) = None) \/
  (_profile_str this = "" /\ getProfile (_map_service this) = None /\
   getGlobalGeodeticProfile host = None).
Proof.
  unfold execState. rewrite initialize_run. cbn [snd TileSource_profile].
  destruct (empty (_profile_str this)) eqn:E; cbn [negb].
  - apply empty_spec in E.
    destruct (getProfile (_map_service this)) as [p |].
    + split.
      * destruct (negb (isTiled (_map_service this))); discriminate.
      * intros [[N _] | (_ & R & _)]; [contradiction | discriminate].
    + split.
      * intros G. right. auto.
      * intros [[N _] | (_ & _ & G)]; [contradiction | exact G].
  - assert (N : _profile_str this <> "").
    { intros H. apply empty_spec in H. congruence. }
    split.
    + intros C. left. auto.
    + intros [[_ C] | (Z & _)]; [exact C | contradiction].
Qed.

(** X12: a profile with a bound that is not a number (NaN) is not expanded:
    its width or its height is NaN, both comparisons of line 94 and line 101
    are false, and [initialize] stores the profile the service reported. *)
Theorem expand_to_square_nan (p : Profile SRS) :
  let ex := getExtent p in
  is_nan (xMin ex) = true \/ is_nan (yMin ex) = true \/
  is_nan (xMax ex) = true \/ is_nan (yMax ex) = true ->
  expand_to_square p = p /\
  (forall (this : ArcGISSource SRS) (uri : string)
          (ovr : option (Profile SRS)),
     _profile_str this = "" -> getProfile (_map_service this) = Some p ->
     TileSource_profile (execState (initialize host uri ovr) this) = Some p).
Proof.
  cbv zeta. intros H.
  assert (E : expand_to_square p = p).
  { assert (N : is_nan (width (getExtent p)) = true \/
                is_nan (height (getExtent p)) = true).
    { unfold width, height.
      destruct H as [H | [H | [H | H]]];
        [left | right | left | right]; apply sub_nan; auto. }
    apply lt_nan in N. destruct N as [L G].
    unfold expand_to_square. now rewrite G, L. }
  split; [exact E |].
  intros this uri ovr S R. unfold execState. rewrite initialize_run.
  cbn [snd TileSource_profile]. rewrite S, R. cbn [empty negb].
  destruct (negb (isTiled (_map_service this))); [now rewrite E | reflexivity].
Qed.

(** X13: the expansion never crops: when none of its [double] operations is
    rounded, the extent of the expanded profile contains the extent it
    started from (its lower bounds are not greater, its upper bounds not
    smaller, as numbers). *)
Theorem expand_to_square_contains (p : Profile SRS) :
  let ex := getExtent p in
  let ex' := getExtent (expand_to_square p) in
  expansion_exact ex = true ->
  Qle_some (F2Q (xMin ex')) (F2Q (xMin ex)) /\
  Qle_some (F2Q (yMin ex')) (F2Q (yMin ex)) /\
  Qle_some (F2Q (xMax ex)) (F2Q (xMax ex')) /\
  Qle_some (F2Q (yMax ex)) (F2Q (yMax ex')).
Proof.
  cbv zeta. unfold expansion_exact. rewrite !andb_true_iff.
  intros [[EW EH] E].
  apply exact_op_true in EW. destruct EW as (X1 & X0 & W & FX1 & FX0 & FW & CW).
  apply exact_op_true in EH. destruct EH as (Y1 & Y0 & H & FY1 & FY0 & FH & CH).
  fold (width (getExtent p)) in FW. fold (height (getExtent p)) in FH.
  destruct (gt (width (getExtent p)) (height (getExtent p))) eqn:G;
    [| destruct (lt (width (getExtent p)) (height (getExtent p))) eqn:L].
  - apply andb_true_iff in E. destruct E as [ED EX].
    apply exact_op_true in ED.
    destruct ED as (W' & H' & D & FW' & FH' & FD & CD). same_value.
    pose proof (ltb_value _ _ _ _ G FH FW) as O.
    destruct (expanded_exact_values _ _ _ _ _ _ EX FY0 FY1 FD)
      as (L' & U' & N' & FL' & FU' & FN' & CL & CU & CN).
    rewrite (expand_to_square_gt p G).
    cbn [getExtent xMin xMax yMin yMax p_xmin p_xmax p_ymin p_ymax] in *.
    rewrite FL', FU', FX0, FX1, FY0, FY1. cbn [Qle_some].
    rewrite CL, CU, CD. unfold Qdiv. change (/ 2)%Q with (1 # 2)%Q.
    repeat split; lra.
  - apply andb_true_iff in E. destruct E as [ED EX].
    apply exact_op_true in ED.
    destruct ED as (H' & W' & D & FH' & FW' & FD & CD). same_value.
    pose proof (ltb_value _ _ _ _ L FW FH) as O.
    destruct (expanded_exact_values _ _ _ _ _ _ EX FX0 FX1 FD)
      as (L' & U' & N' & FL' & FU' & FN' & CL & CU & CN).
    rewrite (expand_to_square_lt p L).
    cbn [getExtent xMin xMax yMin yMax p_xmin p_xmax p_ymin p_ymax] in *.
    rewrite FL', FU', FX0, FX1, FY0, FY1. cbn [Qle_some].
    rewrite CL, CU, CD. unfold Qdiv. change (/ 2)%Q with (1 # 2)%Q.
    repeat split; lra.
  - rewrite (expand_to_square_square p G L).
    rewrite FX0, FX1, FY0, FY1. cbn [Qle_some]. repeat split; lra.
Qed.

(** ** Sequences of requests *)




(** ** The tile size *)

(** X15: [getPixelsPerTile] returns the tile size of the descriptor that
    [MapService::init] left in the constructor, before and after
    [initialize] and after any requests; the URL for a service that is not
    tiled asks for 256 by 256 pixels whatever that size is. *)
Theorem getPixelsPerTile_from_descriptor (options : option Options)
    (uri : string) (ovr : option (Profile SRS))
    (rs : list (Request Progress)) (key : TileKey) :
  let this := fst (ArcGISSource_new host options) in
  let this' := execState (initialize host uri ovr) this in
  let init := MapService_init host (plugin_string options PROPERTY_URL) in
  let size := getTileSize (getTileInfo (snd init)) in
  evalState getPixelsPerTile this = size /\
  evalState getPixelsPerTile this' = size /\
  evalState getPixelsPerTile (execState (serve_all HeightField host rs) this')
    = size /\
  (isTiled (snd init) = false ->
   exists front,
     createImage_url this' key =
     front ++ "&size=256,256" ++ "&transparent=true" ++ "&f=image"
       ++ "&" ++ "." ++ url_format this').
Proof.
  cbv zeta.
  destruct (ArcGISSource_new_members options) as (_ & _ & _ & _ & _ & _ & M).
  cbv zeta in M.
  set (this := fst (ArcGISSource_new host options)) in *.
  assert (M' : _map_service (execState (initialize host uri ovr) this) =
               _map_service this).
  { unfold execState. now rewrite initialize_run. }
  split; [| split; [| split]].
  - change (evalState getPixelsPerTile this)
      with (getTileSize (getTileInfo (_map_service this))).
    now rewrite M.
  - change (evalState getPixelsPerTile
              (execState (initialize host uri ovr) this))
      with (getTileSize (getTileInfo
              (_map_service (execState (initialize host uri ovr) this)))).
    now rewrite M', M.
  - rewrite serve_all_keeps_object.
    change (evalState getPixelsPerTile
              (execState (initialize host uri ovr) this))
      with (getTileSize (getTileInfo
              (_map_service (execState (initialize host uri ovr) this)))).
    now rewrite M', M.
  - intros T. unfold createImage_url. rewrite M', M, T.
    destruct (getTileXY key) as [tile_x tile_y].
    repeat first [apply ends_refl | apply ends_app].
Qed.

(** ** The reader-writer *)

Lemma ArcGISSource_new_log (options : option Options) :
  snd (ArcGISSource_new host options) =
  let init := MapService_init host (plugin_string options PROPERTY_URL) in
  if fst init then []
  else ["[osgearth] [ArcGIS] map service initialization failed: "
          ++ getError (snd init)].
Proof.
  unfold ArcGISSource_new.
  destruct (MapService_init host (plugin_string options PROPERTY_URL))
    as [[] ms]; reflexivity.
Qed.

(** X16: [readObject] declines (FILE_NOT_HANDLED, nothing built or logged)
    exactly when the lower-case extension of the file name is not accepted;
    otherwise it returns the object that the constructor builds from the
    options, also when [MapService::init] fails, which only adds the warning
    of the constructor; apart from that test the file name plays no part. *)
Theorem readObject_builds_source (db : OsgDB) (this : ReaderWriter db)
    (file_name : string) (options : option Options) :
  let accepted :=
    acceptsExtension db this (getLowerCaseFileExtension db file_name) in
  let init := MapService_init host (plugin_string options PROPERTY_URL) in
  (accepted = false ->
   readObject db host this file_name options = (FILE_NOT_HANDLED, [])) /\
  (accepted = true ->
   fst (readObject db host this file_name options) =
     ReadObject (fst (ArcGISSource_new host options)) /\
   snd (readObject db host this file_name options) =
     (if fst init then []
      else ["[osgearth] [ArcGIS] map service initialization failed: "
              ++ getError (snd init)])) /\
  (forall file_name',
     acceptsExtension db this (getLowerCaseFileExtension db file_name')
       = accepted ->
     readObject db host this file_name' options =
     readObject db host this file_name options).
Proof.
  cbv zeta. unfold readObject. split; [| split].
  - intros A. now rewrite A.
  - intros A. rewrite A. cbn [negb].
    rewrite <- ArcGISSource_new_log.
    destruct (ArcGISSource_new host options) as [object log].
    split; reflexivity.
  - intros file_name' A. now rewrite A.
Qed.

End Properties.

(** * Examples *)

(** What [show_double 16] writes: round values, values with more than 16
    digits, the two notations. *)
Example show_double_examples :
  map (show_double 16)
    [(-10)%float; 0x1.3333333333333p-2%float; 0x1.31bf84570a3d7p+24%float;
     (-0x1.31bf8457c1093p+24)%float; 0x1p-24%float; 1e22%float; 0%float] =
  ["-10"; "0.3"; "20037508.34"; "-20037508.34278924";
   "5.960464477539062e-08"; "1e+22"; "0"].
Proof. vm_compute. reflexivity. Qed.

(** C1 does not hold as stated: on a dynamic-export service the URL does not
    end with [f=image]; [&.png] follows it. *)
Lemma createImage_url_export_counterexample :
  isTiled (_map_service (export_source world_profile)) = false /\
  createImage_url (export_source world_profile) key_3_5_2 <>
    base_url ++ "/export?bbox=-10,-5,10,5&format=png"
      ++ "&size=256,256&transparent=true&f=image" /\
  createImage_url (export_source world_profile) key_3_5_2 =
    base_url ++ "/export?bbox=-10,-5,10,5&format=png"
      ++ "&size=256,256&transparent=true&f=image&.png".
Proof.
  split; [reflexivity |]. split.
  - apply String.eqb_neq. vm_compute. reflexivity.
  - vm_compute. reflexivity.
Qed.

Lemma createImage_url_export_witness :
  evalState (createImage (export_host world_profile) key_3_5_2 tt)
    (export_source world_profile) =
  Some (base_url ++ "/export?bbox=-10,-5,10,5&format=png"
          ++ "&size=256,256&transparent=true&f=image&.png").
Proof.
  destruct (createImage_url_export (export_host world_profile)
              (export_source world_profile) key_3_5_2 tt eq_refl) as [_ F].
  rewrite F. vm_compute. reflexivity.
Defined.

(** C2 does not hold as stated: after a failed [MapService::init] the fetch is
    still made, with the export form of the URL and an empty format, and the
    image that the HTTP client returns is returned. *)
Lemma createImage_after_failed_init_counterexample :
  fst (MapService_init failed_host base_url) = false /\
  evalState (createImage failed_host key_3_5_2 tt) failed_source <> None /\
  evalState (createImage failed_host key_3_5_2 tt) failed_source =
    Some (base_url ++ "/export?bbox=-10,-5,10,5&format="
            ++ "&size=256,256&transparent=true&f=image&.").
Proof.
  split; [reflexivity |].
  assert (E : evalState (createImage failed_host key_3_5_2 tt) failed_source =
    Some (base_url ++ "/export?bbox=-10,-5,10,5&format="
            ++ "&size=256,256&transparent=true&f=image&."))
    by (vm_compute; reflexivity).
  split; [rewrite E; discriminate | exact E].
Qed.

Lemma createImage_after_failed_init_witness :
  snd (ArcGISSource_new failed_host server_options) =
    ["[osgearth] [ArcGIS] map service initialization failed: no response"] /\
  runState (createImage failed_host key_3_5_2 tt) failed_source =
    (HTTPClient_readImageFile failed_host
       (createImage_url failed_source key_3_5_2) server_options tt,
     failed_source).
Proof.
  destruct (createImage_after_failed_init failed_host server_options
              key_3_5_2 tt eq_refl)
    as (L & _ & R & _).
  split; [exact L | exact R].
Defined.

(** C4 at its example: level 3, row 5, column 2, format "PNG24". *)
Lemma createImage_url_tiled_witness :
  createImage_url (tile_source "PNG24") key_3_5_2 =
    base_url ++ "/tile/3/5/2.png" /\
  evalState (createImage (tile_host "PNG24") key_3_5_2 tt)
    (tile_source "PNG24") =
    Some (base_url ++ "/tile/3/5/2.png").
Proof.
  destruct (createImage_url_tiled (tile_host "PNG24")
              (tile_source "PNG24") key_3_5_2 tt eq_refl)
    as (_ & F & _ & E).
  split.
  - exact (E eq_refl eq_refl eq_refl eq_refl).
  - rewrite F. vm_compute. reflexivity.
Defined.

(** C3 does not hold as stated: from the extent (0, 0, 1, 0.3) of a service
    that is not tiled, [initialize] stores the extent
    (0, -0.35, 1, 0.65) as binary64 computes it, whose width is 1 and whose
    height is 0.99999999999999989. *)
Lemma initialize_expands_to_square_counterexample :
  let this := export_source thin_profile in
  let ex := getExtent thin_profile in
  _profile_str this = "" /\
  getProfile (_map_service this) = Some thin_profile /\
  isTiled (_map_service this) = false /\
  gt (width ex) (height ex) = true /\
  exists p',
    initialized_profile (export_host thin_profile) this = Some p' /\
    (width (getExtent p') =? height (getExtent p'))%float = false /\
    show_double 17 (width (getExtent p')) = "1" /\
    show_double 17 (height (getExtent p')) = "0.99999999999999989".
Proof.
  cbv zeta. repeat (split; [reflexivity |]).
  eexists. split; [reflexivity |].
  split; [| split]; vm_compute; reflexivity.
Qed.

Lemma initialize_expands_to_square_witness :
  initialized_profile (export_host world_profile)
    (export_source world_profile) =
    Some (Profile_create "EPSG:4326" (-180) (-180) 180 180 2 1) /\
  expansion_exact (getExtent world_profile) = true /\
  (width (getExtent (expand_to_square world_profile))
   =? height (getExtent (expand_to_square world_profile)))%float = true.
Proof.
  assert (X : expansion_exact (getExtent world_profile) = true)
    by (vm_compute; reflexivity).
  destruct (initialize_expands_to_square (export_host world_profile)
              (export_source world_profile) "" None world_profile
              eq_refl eq_refl eq_refl (or_introl eq_refl))
    as (S & _ & _ & _ & _ & E).
  split; [| split].
  - unfold initialized_profile. rewrite S. vm_compute. reflexivity.
  - exact X.
  - exact (proj1 (E X)).
Defined.

(** C5 does not hold as stated: the expansion of the extent (0, 0, 1, 0.3)
    has a lower bound of -0.34999999999999998, and a second expansion moves it
    to -0.35000000000000003. *)
Lemma expand_to_square_twice_counterexample :
  let once := expand_to_square thin_profile in
  let twice := expand_to_square once in
  twice <> once /\
  show_double 17 (yMin (getExtent once)) = "-0.34999999999999998" /\
  show_double 17 (yMin (getExtent twice)) = "-0.35000000000000003".
Proof.
  cbv zeta. split; [| split; vm_compute; reflexivity].
  intros H.
  apply (f_equal (fun p => show_double 17 (yMin (getExtent p)))) in H.
  vm_compute in H. discriminate H.
Qed.

Lemma expand_to_square_twice_witness :
  expand_to_square (expand_to_square world_profile) =
  expand_to_square world_profile.
Proof.
  destruct (expand_to_square_twice world_profile) as (_ & _ & E).
  apply E. vm_compute. reflexivity.
Defined.

(** C7 at its example, the extent (-10, -5, 10, 5), and at a bound that is
    not round: -20037508.342789244 is written with 16 digits, and what is
    written is within half a unit of the 16th digit of the double. *)
Lemma bbox_sixteen_significant_digits_witness :
  (exists rest,
     createImage_url (export_source world_profile) key_3_5_2 =
     base_url ++ "/export?bbox=-10,-5,10,5" ++ rest) /\
  (exists rest,
     createImage_url (export_source world_profile) mercator_key =
     base_url ++ "/export?bbox=-20037508.34278924,-20037508.34278924,"
       ++ "20037508.34278924,20037508.34278924" ++ rest) /\
  (exists v q,
     F2Q (- mercator_bound) = Some v /\
     read_decimal "-20037508.34278924" = Some q /\
     (Qabs (v - q) <= (1 # 2) * 10 ^ (7 - 15))%Q).
Proof.
  split; [| split].
  - destruct (bbox_sixteen_significant_digits
                (export_source world_profile) key_3_5_2 eq_refl)
      as (_ & _ & E).
    destruct (E eq_refl eq_refl eq_refl eq_refl) as [rest R].
    exists rest. rewrite R. vm_compute. reflexivity.
  - destruct (bbox_sixteen_significant_digits
                (export_source world_profile) mercator_key eq_refl)
      as ([rest R] & _ & _).
    exists rest. rewrite R. vm_compute. reflexivity.
  - destruct (bbox_sixteen_significant_digits
                (export_source world_profile) mercator_key eq_refl)
      as (_ & A & _).
    destruct (F2Q (- mercator_bound)) as [v |] eqn:F;
      [| vm_compute in F; discriminate F].
    destruct (A (- mercator_bound)%float v (or_introl eq_refl) F)
      as (q & R & [[Z _] | (s & D & X & SD & _ & _ & E)]).
    + exfalso. vm_compute in F. injection F as <-.
      vm_compute in Z. discriminate Z.
    + vm_compute in SD. injection SD as <- <- <-.
      exists v, q. split; [reflexivity |]. split; [| exact E].
      rewrite <- R. vm_compute. reflexivity.
Defined.

(** C10 on a service that reports "JPEG": the URL ends in [.jpeg], the
    published extension is "png". *)
Lemma getExtension_always_png_witness :
  let this :=
    execState (initialize (tile_host "JPEG") "" None) (tile_source "JPEG") in
  createImage_url this key_3_5_2 =
    base_url ++ "/tile/3/5/2.jpeg" /\
  url_format this = "jpeg" /\
  evalState getExtension this = "png".
Proof.
  cbv zeta.
  destruct (getExtension_always_png (HeightField := unit) (tile_host "JPEG")
              server_options "" None [])
    as (_ & P & _ & _ & J).
  split; [vm_compute; reflexivity |].
  split; [exact (J eq_refl) | exact P].
Defined.

(** X1 on the double nearest to 0.3 and the next one: both are written 0.3,
    and they differ by less than 10^-16. *)
Lemma show_double_same_text_witness :
  exists v w,
    F2Q three_tenths = Some v /\ F2Q after_three_tenths = Some w /\
    ~ (v == w)%Q /\ (Qabs (v - w) <= 10 ^ (-1 - 15))%Q.
Proof.
  destruct (F2Q three_tenths) as [v |] eqn:Fv;
    [| vm_compute in Fv; discriminate Fv].
  destruct (F2Q after_three_tenths) as [w |] eqn:Fw;
    [| vm_compute in Fw; discriminate Fw].
  destruct (show_double_same_text three_tenths after_three_tenths v w Fv Fw
              ltac:(vm_compute; reflexivity))
    as [[Z _] | (s & D & X & SD & _ & A)].
  - exfalso. vm_compute in Fv. injection Fv as <-.
    vm_compute in Z. discriminate Z.
  - vm_compute in SD. injection SD as <- <- <-.
    exists v, w. split; [reflexivity |]. split; [reflexivity |].
    split; [| exact A].
    vm_compute in Fv, Fw. injection Fv as <-. injection Fw as <-.
    intros E. vm_compute in E. discriminate E.
Defined.

(** X2 on 0.17578125, which is 45/256. *)
Lemma show_double_short_decimal_witness :
  show_double 16 0x1.68p-3 = "0.17578125" /\
  exists q,
    read_decimal "0.17578125" = Some q /\ (q == 17578125 # 100000000)%Q.
Proof.
  split; [vm_compute; reflexivity |].
  destruct (F2Q 0x1.68p-3) as [v |] eqn:F;
    [| vm_compute in F; discriminate F].
  assert (V : (v == inject_Z 17578125 * 10 ^ (-8))%Q).
  { vm_compute in F. injection F as <-. vm_compute. reflexivity. }
  destruct (show_double_short_decimal 0x1.68p-3 v 17578125 (-8) F V
              ltac:(reflexivity))
    as (q & R & E).
  exists q. split.
  - rewrite <- R. vm_compute. reflexivity.
  - rewrite E, V. vm_compute. reflexivity.
Defined.

(** X3 on the double nearest to 0.3 and the next one, which are written
    alike. *)
Lemma show_double_monotone_witness :
  exists q q',
    read_decimal (show_double 16 three_tenths) = Some q /\
    read_decimal (show_double 16 after_three_tenths) = Some q' /\
    (q <= q')%Q.
Proof.
  destruct (F2Q three_tenths) as [v |] eqn:Fv;
    [| vm_compute in Fv; discriminate Fv].
  destruct (F2Q after_three_tenths) as [w |] eqn:Fw;
    [| vm_compute in Fw; discriminate Fw].
  assert (LT : (v < w)%Q).
  { vm_compute in Fv, Fw. injection Fv as <-. injection Fw as <-.
    vm_compute. reflexivity. }
  exact (show_double_monotone three_tenths after_three_tenths v w Fv Fw LT).
Defined.

(** X4 on three keys: two keys of one tile have one URL, a key of another
    tile has another one. *)
Lemma createImage_url_tiled_inj_witness :
  createImage_url (tile_source "PNG24") key_3_5_2 =
    createImage_url (tile_source "PNG24") key_3_5_2_elsewhere /\
  createImage_url (tile_source "PNG24") key_3_5_2 <>
    createImage_url (tile_source "PNG24") mercator_key.
Proof.
  split.
  - apply (proj2 (createImage_url_tiled_inj (tile_source "PNG24")
                    key_3_5_2 key_3_5_2_elsewhere eq_refl eq_refl eq_refl)).
    split; reflexivity.
  - intros E.
    apply (proj1 (createImage_url_tiled_inj (tile_source "PNG24")
                    key_3_5_2 mercator_key eq_refl eq_refl eq_refl)) in E.
    destruct E as [L _]. discriminate L.
Defined.

(** X6 on the extent (-10, -5, 10, 5). *)
Lemma bbox_fields_witness :
  exists bbox rest,
    createImage_url (export_source world_profile) key_3_5_2 =
      base_url ++ "/export?bbox=" ++ bbox ++ "&format=" ++ rest /\
    split_at "," bbox = ["-10"; "-5"; "10"; "5"].
Proof.
  destruct (bbox_fields (export_source world_profile) key_3_5_2 eq_refl)
    as (bbox & rest & U & S & _).
  exists bbox, rest. split; [exact U |].
  rewrite S. vm_compute. reflexivity.
Defined.

(** X7 on two extents that differ in the last bit of their lower bounds: both
    bounds are written 0.3, and the URLs are the same. *)
Lemma createImage_url_export_inj_witness :
  (three_tenths =? after_three_tenths)%float = false /\
  createImage_url (export_source world_profile) (key_from three_tenths) =
    createImage_url (export_source world_profile)
      (key_from after_three_tenths).
Proof.
  split; [vm_compute; reflexivity |].
  apply (proj2 (createImage_url_export_inj (export_source world_profile)
                  (key_from three_tenths) (key_from after_three_tenths)
                  eq_refl)).
  repeat split; vm_compute; reflexivity.
Defined.

(** X9 on a tiled service and no options: the tile URL has no base. *)
Lemma createImage_url_without_base_witness :
  let this := fst (ArcGISSource_new (tile_host "PNG24") None) in
  _url this = "" /\
  evalState (createImage (tile_host "PNG24") key_3_5_2 tt) this =
    Some "/tile/3/5/2.png".
Proof.
  cbv zeta.
  destruct (createImage_url_without_base (tile_host "PNG24") None
              key_3_5_2 tt (or_introl eq_refl))
    as (B & _ & _ & F).
  split; [exact B |]. rewrite F. vm_compute. reflexivity.
Defined.

(** X12 on a profile whose first bound is NaN. *)
Lemma expand_to_square_nan_witness :
  expand_to_square nan_profile = nan_profile /\
  initialized_profile (export_host nan_profile) (export_source nan_profile) =
    Some nan_profile.
Proof.
  destruct (expand_to_square_nan (export_host nan_profile) nan_profile
              (or_introl eq_refl))
    as [E I].
  split; [exact E |].
  exact (I (export_source nan_profile) "" None eq_refl eq_refl).
Defined.

(** X13 on the whole world in degrees: (-180, -180, 180, 180) contains
    (-180, -90, 180, 90). *)
Lemma expand_to_square_contains_witness :
  let ex := getExtent world_profile in
  let ex' := getExtent (expand_to_square world_profile) in
  show_double 16 (yMin ex') = "-180" /\ show_double 16 (yMax ex') = "180" /\
  Qle_some (F2Q (yMin ex')) (F2Q (yMin ex)) /\
  Qle_some (F2Q (yMax ex)) (F2Q (yMax ex')).
Proof.
  cbv zeta.
  destruct (expand_to_square_contains world_profile
              ltac:(vm_compute; reflexivity))
    as (_ & L & _ & U).
  split; [vm_compute; reflexivity |]. split; [vm_compute; reflexivity |].
  split; [exact L | exact U].
Defined.
